(** * Sequential semantics of the blocking queues of [hungbiu]

    A shallow embedding of [array_blocking_queue.h] and
    [linked_blocking_queue.h].  Every operation is modelled as one thread
    runs it with no other thread interleaved: an atomic load returns the
    value last stored, a compare-and-swap succeeds exactly when the expected
    value is the current one, and a busy-wait whose condition is false can
    never leave its loop. *)

From stdpp Require Import base numbers list gmap.

Local Open Scope Z_scope.
#[local] Set Warnings "-clear-no-such-hyp".

(** ** [std::size_t] *)

Module SizeT.

Definition bits : Z := 64.
Definition modulus : Z := 2 ^ bits.

(** Unsigned arithmetic is modulo [2 ^ bits]. *)
Definition wrap (z : Z) : Z := z mod modulus.

Definition in_range (z : Z) : Prop := 0 ≤ z < modulus.

(** [compare_exchange_strong] on an atomic counter holding [current]:
    whether it succeeded, the value the atomic holds afterwards and the
    value left in the caller's [expected] variable. *)
Definition compare_exchange (current expected desired : Z) : bool * Z * Z :=
  if current =? expected then (true, desired, expected)
  else (false, current, current).

End SizeT.

(** ** [spinlock] *)

Module Spinlock.

(** [lock_.exchange(desired)]: the value read and the value left. *)
Definition exchange (desired : bool) (lock_ : bool) : bool * bool :=
  (lock_, desired).

(** The inner loop of [lock]: [while (lock_.load()) pause]. *)
Fixpoint wait_free (fuel : nat) (lock_ : bool) : option bool :=
  match fuel with
  | O => None
  | S fuel => if lock_ then wait_free fuel lock_ else Some lock_
  end.

(** [lock]: the state of the lock when the call returns, or [None] when
    the loops are cut short. *)
Fixpoint lock (fuel : nat) (lock_ : bool) : option bool :=
  match fuel with
  | O => None
  | S fuel =>
      let (was, lock_) := exchange true lock_ in
      if negb was then Some lock_
      else
        match wait_free fuel lock_ with
        | None => None
        | Some lock_ => lock fuel lock_
        end
  end.

(** [try_lock]: what it returns and the state of the lock afterwards. *)
Definition try_lock (lock_ : bool) : bool * bool :=
  if negb lock_ then
    let (was, lock_) := exchange true lock_ in (negb was, lock_)
  else (false, lock_).

Definition unlock (lock_ : bool) : bool := false.

End Spinlock.

(** ** [array_blocking_queue<T>] *)

Module ArrayBlockingQueue.

Import SizeT.

Section array_blocking_queue.

Context {T : Type}.

(** A slot.  [val_] is raw storage: the model records the element objects
    that were constructed in it and not destroyed since, newest first.
    The constructors, the move assignment and the destructor of [T] are
    taken to return: this model has no exceptions of the element type. *)
Record slot_t := Slot { turn_ : Z; val_ : list T }.

Definition has_val (s : slot_t) : bool := negb (Z.land (turn_ s) 1 =? 0).

Definition construct (s : slot_t) (v : T) : slot_t :=
  Slot (turn_ s) (v :: val_ s).

Definition destroy (s : slot_t) : slot_t :=
  Slot (turn_ s) (tail (val_ s)).

Record queue := Queue {
  capacity_ : Z;
  array_ : list slot_t;
  head_ : Z;
  tail_ : Z
}.

Definition set_head (h : Z) (q : queue) : queue :=
  Queue (capacity_ q) (array_ q) h (tail_ q).

Definition set_tail (t : Z) (q : queue) : queue :=
  Queue (capacity_ q) (array_ q) (head_ q) t.

Definition set_slot (i : nat) (s : slot_t) (q : queue) : queue :=
  Queue (capacity_ q) (<[i := s]> (array_ q)) (head_ q) (tail_ q).

(** What a call does: it returns, it busy-waits for ever on a turn that
    only another thread could advance, it touches storage that holds no
    object or lies outside the array, or the retry loop was cut short. *)
Inductive outcome (A : Type) : Type :=
| Returns (a : A) (q : queue)
| Spins (q : queue)
| Undefined
| OutOfFuel.
Global Arguments Returns {A} a q.
Global Arguments Spins {A} q.
Global Arguments Undefined {A}.
Global Arguments OutOfFuel {A}.

Definition get_idx (q : queue) (ticket : Z) : Z :=
  Z.land ticket (wrap (capacity_ q - 1)).

Definition get_write_turn (q : queue) (ticket : Z) : Z :=
  wrap (ticket / capacity_ q * 2).

Definition get_read_turn (q : queue) (ticket : Z) : Z :=
  wrap (wrap (ticket / capacity_ q * 2) + 1).

Definition done_writing (q : queue) (slot : slot_t) (write_ticket : Z) : slot_t :=
  let read_turn := get_read_turn q write_ticket in
  Slot read_turn (val_ slot).

Definition done_reading (slot : slot_t) : slot_t :=
  Slot (wrap (turn_ slot + 1)) (val_ slot).

(** *** Construction *)

Inductive construction : Type :=
| Built (q : queue)
| AssertFails
| BadAlloc.

(** [allocate]: [malloc] either hands out the array or returns null, and
    then [std::bad_alloc] is thrown. *)
Definition allocate (malloc_ok : bool) : option unit :=
  if malloc_ok then Some tt else None.

(** The constructor, for a [capacity] argument and an allocator that
    succeeds or not. *)
Definition make (malloc_ok : bool) (capacity : Z) : construction :=
  if negb (1 <? capacity) then AssertFails
  else if negb (capacity mod 2 =? 0) then AssertFails
  else
    match allocate malloc_ok with
    | None => BadAlloc
    | Some _ =>
        Built (Queue capacity (replicate (Z.to_nat capacity) (Slot 0 [])) 0 0)
    end.

(** *** Modifiers *)

Fixpoint try_emplace_from (fuel : nat) (v : T) (write_ticket : Z) (q : queue)
  : outcome bool :=
  match fuel with
  | O => OutOfFuel
  | S fuel =>
      let i := Z.to_nat (get_idx q write_ticket) in
      match array_ q !! i with
      | None => Undefined
      | Some slot =>
          if get_write_turn q write_ticket =? turn_ slot then
            match compare_exchange (tail_ q) write_ticket (wrap (write_ticket + 1)) with
            | (true, tl, _) =>
                let q := set_tail tl q in
                let slot := done_writing q (construct slot v) write_ticket in
                Returns true (set_slot i slot q)
            | (false, tl, write_ticket) =>
                try_emplace_from fuel v write_ticket (set_tail tl q)
            end
          else
            let old_ticket := write_ticket in
            let write_ticket := tail_ q in
            if negb (old_ticket =? write_ticket)
            then try_emplace_from fuel v write_ticket q
            else Returns false q
      end
  end.

Definition try_emplace (fuel : nat) (v : T) (q : queue) : outcome bool :=
  try_emplace_from fuel v (tail_ q) q.

Definition emplace (v : T) (q : queue) : outcome unit :=
  let write_ticket := tail_ q in
  let q := set_tail (wrap (tail_ q + 1)) q in
  let i := Z.to_nat (get_idx q write_ticket) in
  match array_ q !! i with
  | None => Undefined
  | Some slot =>
      let turn := get_write_turn q write_ticket in
      if negb (turn =? turn_ slot) then Spins q
      else
        let slot := done_writing q (construct slot v) write_ticket in
        Returns tt (set_slot i slot q)
  end.

Definition try_push (fuel : nat) (val : T) (q : queue) : outcome bool :=
  try_emplace fuel val q.

Definition push (val : T) (q : queue) : outcome unit :=
  emplace val q.

(** [val = std::move(slot.val_); slot.destroy(); done_reading(slot)]:
    the value read is the object living in the storage. *)
Definition take (i : nat) (slot : slot_t) (q : queue) : option (T * queue) :=
  match val_ slot with
  | [] => None
  | x :: _ => Some (x, set_slot i (done_reading (destroy slot)) q)
  end.

(** [try_pop(T& val)] returns its boolean together with the content of
    [val] afterwards. *)
Fixpoint try_pop_from (fuel : nat) (val : T) (read_ticket : Z) (q : queue)
  : outcome (bool * T) :=
  match fuel with
  | O => OutOfFuel
  | S fuel =>
      let i := Z.to_nat (get_idx q read_ticket) in
      match array_ q !! i with
      | None => Undefined
      | Some slot =>
          if get_read_turn q read_ticket =? turn_ slot then
            match compare_exchange (head_ q) read_ticket (wrap (read_ticket + 1)) with
            | (true, hd, _) =>
                match take i slot (set_head hd q) with
                | None => Undefined
                | Some (x, q) => Returns (true, x) q
                end
            | (false, hd, read_ticket) =>
                try_pop_from fuel val read_ticket (set_head hd q)
            end
          else
            let old_ticket := read_ticket in
            let read_ticket := head_ q in
            if negb (read_ticket =? old_ticket)
            then try_pop_from fuel val read_ticket q
            else Returns (false, val) q
      end
  end.

Definition try_pop (fuel : nat) (val : T) (q : queue) : outcome (bool * T) :=
  try_pop_from fuel val (head_ q) q.

(** [pop(T& val)] returns the content of [val] afterwards. *)
Definition pop (val : T) (q : queue) : outcome T :=
  let read_ticket := head_ q in
  let q := set_head (wrap (head_ q + 1)) q in
  let i := Z.to_nat (get_idx q read_ticket) in
  match array_ q !! i with
  | None => Undefined
  | Some slot =>
      let turn := get_read_turn q read_ticket in
      if negb (turn =? turn_ slot) then Spins q
      else
        match take i slot q with
        | None => Undefined
        | Some (x, q) => Returns x q
        end
  end.


(** *** Destruction *)

(** [~slot_t]: the element objects whose destructor ran and the slot
    afterwards; [None] when [destroy] is called on storage that holds no
    object. *)
Definition slot_dtor (s : slot_t) : option (list T * slot_t) :=
  if has_val s then
    match val_ s with
    | [] => None
    | x :: _ => Some ([x], destroy s)
    end
  else Some ([], s).

(** The loop of the member [destroy], [count] iterations from index [i]
    on; [None] also when the index leaves the array. *)
Fixpoint destroy_from (count i : nat) (q : queue) : option (list T * queue) :=
  match count with
  | O => Some ([], q)
  | S count =>
      match array_ q !! i with
      | None => None
      | Some s =>
          match slot_dtor s with
          | None => None
          | Some (ds, s) =>
              match destroy_from count (S i) (set_slot i s q) with
              | None => None
              | Some (ds', q) => Some (ds ++ ds', q)
              end
          end
      end
  end.

Definition destroy_slots (q : queue) : option (list T * queue) :=
  destroy_from (Z.to_nat (capacity_ q)) 0 q.

(** [deallocate]: the array goes back to the allocator. *)
Definition deallocate (q : queue) : queue :=
  Queue (capacity_ q) [] (head_ q) (tail_ q).

(** The destructor: the element objects destroyed, in the order their
    destructors ran, and what is left of the queue. *)
Definition dtor (q : queue) : option (list T * queue) :=
  match destroy_slots q with
  | None => None
  | Some (ds, q) => Some (ds, deallocate q)
  end.

(** A slot between calls: its turn is odd exactly when it holds a value,
    and it holds one at most. *)
Definition settled (s : slot_t) : Prop :=
  (∃ x, val_ s = [x] ∧ has_val s = true) ∨ (val_ s = [] ∧ has_val s = false).

Definition cleared (s : slot_t) : slot_t := Slot (turn_ s) [].

(** *** Capacities *)

(** The capacities the index mask is meant for: powers of two above 1
    that fit [std::size_t]. *)
Definition valid_capacity (c : Z) : Prop := ∃ j, 1 ≤ j < bits ∧ c = 2 ^ j.

Definition power_of_two (c : Z) : Prop := ∃ j, 0 ≤ j ∧ c = 2 ^ j.

(** *** The ring of slots as a FIFO sequence *)

(** [holds q H xs]: the queue holds the values [xs], oldest first; they
    carry the tickets [H], [H+1], ... counted without wrap-around, and the
    other slots are ready for the tickets that follow.  With capacity 2
    turns and tickets wrap around together; with a larger capacity they do
    not, and the tickets end at [modulus]. *)
Definition holds (q : queue) (H : Z) (xs : list T) : Prop :=
  valid_capacity (capacity_ q) ∧
  length (array_ q) = Z.to_nat (capacity_ q) ∧
  0 ≤ H ∧
  Z.of_nat (length xs) ≤ capacity_ q ∧
  (2 < capacity_ q → H + Z.of_nat (length xs) ≤ modulus) ∧
  head_ q = wrap H ∧
  tail_ q = wrap (H + Z.of_nat (length xs)) ∧
  (∀ (i : nat) x, xs !! i = Some x →
     array_ q !! Z.to_nat ((H + Z.of_nat i) mod capacity_ q)
     = Some (Slot (wrap (2 * ((H + Z.of_nat i) / capacity_ q) + 1)) [x])) ∧
  (∀ t, H + Z.of_nat (length xs) ≤ t < H + capacity_ q →
     array_ q !! Z.to_nat (t mod capacity_ q)
     = Some (Slot (wrap (2 * (t / capacity_ q))) [])).

Definition represents (q : queue) (xs : list T) : Prop := ∃ H, holds q H xs.

(** *** A single-threaded driver *)

Inductive op : Type :=
| Push (v : T)
| TryPush (v : T)
| Pop
| TryPop.

(** What the push-family calls accepted and what the pop-family calls
    handed out, both in call order. *)
Record history := History { pushed : list T; popped : list T }.

Definition bind {A B : Type} (o : outcome A) (k : A → queue → outcome B)
  : outcome B :=
  match o with
  | Returns a q => k a q
  | Spins q => Spins q
  | Undefined => Undefined
  | OutOfFuel => OutOfFuel
  end.

(** One call.  The driver owns the variable [val] that the pop-family
    calls assign to. *)
Definition step (fuel : nat) (o : op) (val : T) (h : history) (q : queue)
  : outcome (T * history) :=
  match o with
  | Push v =>
      bind (push v q) (λ _ q,
        Returns (val, History (pushed h ++ [v]) (popped h)) q)
  | TryPush v =>
      bind (try_push fuel v q) (λ ok q,
        Returns (val, if ok : bool then History (pushed h ++ [v]) (popped h) else h) q)
  | Pop =>
      bind (pop val q) (λ x q,
        Returns (x, History (pushed h) (popped h ++ [x])) q)
  | TryPop =>
      bind (try_pop fuel val q) (λ r q,
        Returns (r.2, if r.1 then History (pushed h) (popped h ++ [r.2]) else h) q)
  end.

Fixpoint run (fuel : nat) (ops : list op) (val : T) (h : history) (q : queue)
  : outcome (T * history) :=
  match ops with
  | [] => Returns (val, h) q
  | o :: ops => bind (step fuel o val h q) (λ r q, run fuel ops r.1 r.2 q)
  end.

(** A push-family call and a pop-family call, blocking or not. *)
Definition push_call (w : bool * T) : op := if w.1 then TryPush w.2 else Push w.2.

Definition pop_call (b : bool) : op := if b then TryPop else Pop.

(** The FIFO buffer the calls are meant to behave as, on a list: what
    [ops] does to a buffer of capacity [c] that holds [xs], with the
    caller's variable and the history it leaves; [None] when a blocking
    call is made where it would wait for ever, [push] on the full buffer
    or [pop] on the empty one. *)
Fixpoint fifo_run (c : Z) (ops : list op) (val : T) (h : history) (xs : list T)
  : option (T * history * list T) :=
  match ops with
  | [] => Some (val, h, xs)
  | Push v :: ops =>
      if decide (Z.of_nat (length xs) < c)
      then fifo_run c ops val (History (pushed h ++ [v]) (popped h)) (xs ++ [v])
      else None
  | TryPush v :: ops =>
      if decide (Z.of_nat (length xs) < c)
      then fifo_run c ops val (History (pushed h ++ [v]) (popped h)) (xs ++ [v])
      else fifo_run c ops val h xs
  | Pop :: ops =>
      match xs with
      | x :: xs => fifo_run c ops x (History (pushed h) (popped h ++ [x])) xs
      | [] => None
      end
  | TryPop :: ops =>
      match xs with
      | x :: xs => fifo_run c ops x (History (pushed h) (popped h ++ [x])) xs
      | [] => fifo_run c ops val h xs
      end
  end.

(** The states a single thread can bring a queue of valid capacity to. *)
Inductive reachable : queue → Prop :=
| reachable_make c q :
    valid_capacity c → make true c = Built q → reachable q
| reachable_step fuel o val h q r q' :
    reachable q → step fuel o val h q = Returns r q' → reachable q'.

End array_blocking_queue.

Global Arguments slot_t : clear implicits.
Global Arguments queue : clear implicits.
Global Arguments construction : clear implicits.
Global Arguments outcome : clear implicits.
Global Arguments op : clear implicits.
Global Arguments history : clear implicits.
Global Arguments pop_call : clear implicits.

(** A state for examples: a queue of numbers built with capacity 4. *)
Definition four : queue nat := Queue 4 (replicate 4 (Slot 0 [])) 0 0.

(** And that queue after the numbers 1 to 4 were pushed. *)
Definition four_full : queue nat :=
  Queue 4 [Slot 1 [1%nat]; Slot 1 [2%nat]; Slot 1 [3%nat]; Slot 1 [4%nat]] 0 4.

End ArrayBlockingQueue.

(** ** [linked_blocking_queue<T>] *)

Module LinkedBlockingQueue.

(** Node addresses; a [node*] is an address or [nullptr]. *)
Abbreviation addr := positive (only parsing).
Abbreviation ptr := (option positive) (only parsing).

(** What the queue uses of its element type: what a moved-from object is
    left as; the two traits named by the exception specifications of
    [insert] and of the private [pop]; and whether the destructor is
    trivial.  Whether a constructor throws is not a matter of the type
    alone: the queue's surroundings decide it, run by run. *)
Class Element (T : Type) := {
  moved_from : T → T;
  is_nothrow_copy_constructible : bool;
  is_nothrow_move_constructible : bool;
  is_trivially_destructible : bool
}.

Section linked_blocking_queue.

Context {T : Type} `{!Element T}.

(** The bytes of [node::val_]: storage that holds no object, all zero
    after [memset] (a constructor that threw may have left other bytes,
    which nothing reads), or an object of type [T] whose destructor has
    not run. *)
Inductive storage : Type :=
| Zeroed
| Object (v : T).

Record node := Node { val_ : storage; next_ : ptr }.

Record end_t := End { lock_ : bool; ptr_ : ptr }.

(** The queue with what it lives in: [heap] maps the blocks whose bytes
    have been written, [malloc] hands out [next_block] as long as
    [blocks_left] allows, and [ctor_throws] says of each run of a copy or
    move constructor of [T] still to come whether it throws; when the list
    is used up none does. *)
Record queue := Queue {
  heap : gmap positive node;
  next_block : addr;
  blocks_left : nat;
  ctor_throws : list bool;
  free_list_ : ptr;
  front_ : end_t;
  back_ : end_t
}.

(** What a call does: it returns; an exception of the element type leaves
    it; an exception meets [noexcept] and [std::terminate] is called; it
    waits for ever on a lock or a condition only another thread could
    change; an [assert] fails; or it goes through a null or unwritten
    pointer. *)
Inductive outcome (A : Type) : Type :=
| Returns (a : A) (q : queue)
| Throws (q : queue)
| Terminates
| Blocks (q : queue)
| AssertFails
| Undefined.
Global Arguments Returns {A} a q.
Global Arguments Throws {A} q.
Global Arguments Terminates {A}.
Global Arguments Blocks {A} q.
Global Arguments AssertFails {A}.
Global Arguments Undefined {A}.

(** *** Calls as state transformers *)

Definition M (A : Type) : Type := queue → outcome A.

Definition ret {A : Type} (a : A) : M A := λ q, Returns a q.

Definition bind {A B : Type} (m : M A) (k : A → M B) : M B :=
  λ q,
    match m q with
    | Returns a q => k a q
    | Throws q => Throws q
    | Terminates => Terminates
    | Blocks q => Blocks q
    | AssertFails => AssertFails
    | Undefined => Undefined
    end.

Notation "'let*' x ':=' m 'in' k" := (bind m (λ x, k))
  (at level 10, x name, m at level 100, k at level 200).
Notation "m ';;' k" := (bind m (λ _, k))
  (at level 100, k at level 200, right associativity).

Definition throw {A : Type} : M A := λ q, Throws q.
Definition terminate {A : Type} : M A := λ _, Terminates.
Definition block {A : Type} : M A := λ q, Blocks q.
Definition assert_fails {A : Type} : M A := λ _, AssertFails.
Definition undefined {A : Type} : M A := λ _, Undefined.

(** Atomic loads and stores of the three pointers. *)
Definition load_free_list : M ptr := λ q, Returns (free_list_ q) q.
Definition load_front : M ptr := λ q, Returns (ptr_ (front_ q)) q.
Definition load_back : M ptr := λ q, Returns (ptr_ (back_ q)) q.

Definition store_free_list (p : ptr) : M unit := λ q,
  Returns tt (Queue (heap q) (next_block q) (blocks_left q) (ctor_throws q)
                p (front_ q) (back_ q)).

Definition store_front (p : ptr) : M unit := λ q,
  Returns tt (Queue (heap q) (next_block q) (blocks_left q) (ctor_throws q)
                (free_list_ q) (End (lock_ (front_ q)) p) (back_ q)).

Definition store_back (p : ptr) : M unit := λ q,
  Returns tt (Queue (heap q) (next_block q) (blocks_left q) (ctor_throws q)
                (free_list_ q) (front_ q) (End (lock_ (back_ q)) p)).

(** [spinlock::lock] and [spinlock::unlock] on either end. *)
Definition lock_front : M unit := λ q,
  if lock_ (front_ q) then Blocks q
  else Returns tt (Queue (heap q) (next_block q) (blocks_left q) (ctor_throws q)
                     (free_list_ q) (End true (ptr_ (front_ q))) (back_ q)).

Definition unlock_front : M unit := λ q,
  Returns tt (Queue (heap q) (next_block q) (blocks_left q) (ctor_throws q)
                (free_list_ q) (End false (ptr_ (front_ q))) (back_ q)).

Definition lock_back : M unit := λ q,
  if lock_ (back_ q) then Blocks q
  else Returns tt (Queue (heap q) (next_block q) (blocks_left q) (ctor_throws q)
                     (free_list_ q) (front_ q) (End true (ptr_ (back_ q)))).

Definition unlock_back : M unit := λ q,
  Returns tt (Queue (heap q) (next_block q) (blocks_left q) (ctor_throws q)
                (free_list_ q) (front_ q) (End false (ptr_ (back_ q)))).

(** Reading and writing a node through a pointer. *)
Definition load_node (p : ptr) : M node := λ q,
  match p with
  | None => Undefined
  | Some a =>
      match heap q !! a with
      | None => Undefined
      | Some n => Returns n q
      end
  end.

Definition write_node (a : addr) (n : node) (q : queue) : queue :=
  Queue (<[a := n]> (heap q)) (next_block q) (blocks_left q) (ctor_throws q)
    (free_list_ q) (front_ q) (back_ q).

Definition store_node (p : ptr) (n : node) : M unit :=
  load_node p;; λ q,
    match p with
    | None => Undefined
    | Some a => Returns tt (write_node a n q)
    end.

(** [malloc(sizeof(node))]. *)
Definition malloc : M ptr := λ q,
  match blocks_left q with
  | O => Returns None q
  | S k =>
      Returns (Some (next_block q))
        (Queue (heap q) (Pos.succ (next_block q)) k (ctor_throws q) (free_list_ q)
           (front_ q) (back_ q))
  end.

(** The queue once the next run of a constructor of [T] is over. *)
Definition ctor_done (q : queue) : queue :=
  Queue (heap q) (next_block q) (blocks_left q) (tail (ctor_throws q))
    (free_list_ q) (front_ q) (back_ q).

(** Whether that run throws. *)
Definition next_ctor_throws (q : queue) : bool :=
  default false (head (ctor_throws q)).

(** A copy or move constructor of [T] runs. *)
Definition element_ctor_throws : M bool := λ q,
  Returns (next_ctor_throws q) (ctor_done q).

(** [std::memset(p, 0, sizeof(node))]. *)
Definition memset_zero (p : ptr) : M unit := λ q,
  match p with
  | None => Undefined
  | Some a => Returns tt (write_node a (Node Zeroed None) q)
  end.

(** *** The private members *)

(** The compare-and-swap of [free_node] finds [free_list_] as it was just
    loaded, so its loop body never runs. *)
Definition free_node (p : ptr) : M unit :=
  let* head := load_free_list in
  let* n := load_node p in
  store_node p (Node (val_ n) head);;
  store_free_list p.

Definition alloc_from_free_list : M ptr :=
  let* alloc := load_free_list in
  match alloc with
  | None => ret alloc
  | Some _ =>
      let* n := load_node alloc in
      store_free_list (next_ n);;
      ret alloc
  end.

Definition alloc_from_allocator : M ptr := malloc.

Definition alloc_node : M ptr :=
  let* new_node := alloc_from_free_list in
  let* new_node :=
    match new_node with
    | None => alloc_from_allocator
    | Some _ => ret new_node
    end in
  memset_zero new_node;;
  ret new_node.

(** [cv_.notify_one()] wakes nobody when no other thread runs. *)
Definition notify_one : M unit := ret tt.

(** [insert], which is [noexcept] when [nothrow], that is when [T] is
    nothrow constructible from the argument.  The placement
    [new (tail) node(value)] constructs [val_] from the caller's value by
    copy or by move and then writes a null [next_]; when that constructor
    throws, the exception unwinds through [lk_back], which unlocks, the
    node at [back_] holds no object and its [next_] is still null, and
    nobody keeps [new_node]. *)
Definition insert (nothrow : bool) (value : T) : M unit :=
  let* new_node := alloc_node in
  lock_back;;
  let* tail := load_back in
  load_node tail;;
  let* thrown := element_ctor_throws in
  if thrown then
    if nothrow then terminate else unlock_back;; throw
  else
    store_node tail (Node (Object value) None);;
    let* n := load_node tail in
    store_node tail (Node (val_ n) new_node);;
    store_back new_node;;
    unlock_back;;
    notify_one.

Definition empty : M bool :=
  let* front := load_front in
  let* n := load_node front in
  ret (match next_ n with None => true | Some _ => false end).

(** The exception specification of the private [pop]. *)
Definition pop_noexcept : bool :=
  is_nothrow_copy_constructible || is_nothrow_move_constructible.

(** The private [pop(std::unique_lock<lock_t>)], entered with the front
    lock held.  [T e = std::move(old->val_)] runs the move constructor (the
    copy constructor, for a type without one); an exception unwinds through
    [front_lk], which unlocks, unless it meets the [noexcept].  [return e]
    is taken to construct the result in place, as compilers do. *)
Definition pop_locked : M T :=
  let* e := empty in
  if e then assert_fails
  else
    let* old := load_front in
    let* n := load_node old in
    match val_ n with
    | Zeroed => undefined
    | Object v =>
        let* thrown := element_ctor_throws in
        if thrown then
          if pop_noexcept then terminate else unlock_front;; throw
        else
          store_node old (Node (Object (moved_from v)) (next_ n));;
          store_front (next_ n);;
          unlock_front;;
          free_node old;;
          ret v
    end.

(** *** The public members *)

(** The members as initialised before the constructor's body runs, in a
    memory where [malloc] can hand out [blocks] blocks. *)
Definition init (blocks : nat) (throws : list bool) : queue :=
  Queue ∅ 1%positive blocks throws None (End false None) (End false None).

Definition make (blocks : nat) (throws : list bool) : outcome unit :=
  (let* p := alloc_node in
   store_front p;;
   store_back p)
    (init blocks throws).

(** [push(const T&)] copies the value into the node. *)
Definition push (value : T) : M unit :=
  insert is_nothrow_copy_constructible value.

(** [push(T&&)] moves it. *)
Definition push_rvalue (value : T) : M unit :=
  insert is_nothrow_move_constructible value.

(** [try_pop].  [ret = std::move(pop(...))] move-constructs the value in
    the empty [std::optional] from the one the private [pop] returned: a
    second run of the move constructor, after the node was detached and
    the lock released.  [return ret] is taken to construct the result in
    place. *)
Definition try_pop : M (option T) :=
  lock_front;;
  let* e := empty in
  if e then unlock_front;; ret None
  else
    let* v := pop_locked in
    let* thrown := element_ctor_throws in
    if thrown then
      if is_nothrow_move_constructible then terminate else throw
    else ret (Some v).

(** [pop]: [cv_.wait] returns at once when the queue is not empty, and
    otherwise releases the lock and sleeps with nobody to wake it. *)
Definition pop : M T :=
  lock_front;;
  let* e := empty in
  if e then unlock_front;; block
  else pop_locked.

(** *** Destruction *)

(** [free(p)]: the block leaves the heap; freeing what is not there is
    undefined. *)
Definition free_block (p : ptr) : M unit :=
  load_node p;; λ q,
    match p with
    | None => Undefined
    | Some a =>
        Returns tt (Queue (delete a (heap q)) (next_block q) (blocks_left q)
                      (ctor_throws q) (free_list_ q) (front_ q) (back_ q))
    end.

(** [~node()] runs the destructor of [T] on [val_], whatever the storage
    holds: the objects it ended.  On storage that never held a [T] a
    trivial destructor does nothing, and any other is undefined. *)
Definition node_dtor (n : node) : M (list T) :=
  match val_ n with
  | Object v => ret [v]
  | Zeroed => if is_trivially_destructible then ret [] else undefined
  end.

(** The lambda [delete_list]: the objects destroyed, in order; [None] when
    the loop is cut short. *)
Fixpoint delete_list (fuel : nat) (p : ptr) : M (option (list T)) :=
  match p with
  | None => ret (Some [])
  | Some _ =>
      match fuel with
      | O => ret None
      | S fuel =>
          let* tmp := load_node p in
          let* ds := node_dtor tmp in
          free_block p;;
          let* rest := delete_list fuel (next_ tmp) in
          ret (option_map (app ds) rest)
      end
  end.

(** The destructor.  [std::scoped_lock] takes both locks and gives them
    back at the end. *)
Definition dtor (fuel : nat) : M (option (list T)) :=
  lock_front;;
  lock_back;;
  let* p := load_front in
  store_front None;;
  let* enqueued := delete_list fuel p in
  let* p := load_free_list in
  store_free_list None;;
  let* freed := delete_list fuel p in
  unlock_back;;
  unlock_front;;
  ret (match enqueued, freed with
       | Some ds, Some ds' => Some (ds ++ ds')
       | _, _ => None
       end).

(** *** The list of nodes as a FIFO sequence *)

(** The nodes from [p] up to, and without, [b]: each cell is the address
    of a node and the value constructed in it. *)
Fixpoint lseg (h : gmap positive node) (p : addr) (cells : list (addr * T))
  (b : addr) : Prop :=
  match cells with
  | [] => p = b
  | c :: cells =>
      p = c.1 ∧
      ∃ p', h !! c.1 = Some (Node (Object c.2) (Some p')) ∧ lseg h p' cells b
  end.

(** The nodes of the free list that starts at [p]. *)
Fixpoint fseg (h : gmap positive node) (p : ptr) (fs : list addr) : Prop :=
  match fs with
  | [] => p = None
  | f :: fs => p = Some f ∧ ∃ n, h !! f = Some n ∧ fseg h (next_ n) fs
  end.

(** [holds q xs]: no lock is taken, the nodes from [front_] to [back_]
    carry the values [xs], oldest first, the node at [back_] is zeroed,
    and the free list shares no node with them. *)
Definition holds (q : queue) (xs : list T) : Prop :=
  ∃ (cells : list (addr * T)) (f b : addr) (fs : list addr),
    xs = cells.*2 ∧
    front_ q = End false (Some f) ∧
    back_ q = End false (Some b) ∧
    lseg (heap q) f cells b ∧
    heap q !! b = Some (Node Zeroed None) ∧
    fseg (heap q) (free_list_ q) fs ∧
    NoDup (cells.*1 ++ b :: fs) ∧
    (∀ a, (next_block q ≤ a)%positive → heap q !! a = None).

(** The free list that starts at [p], each cell the address of a node
    and the object left in it. *)
Fixpoint rseg (h : gmap positive node) (p : ptr) (fs : list (addr * T)) : Prop :=
  match fs with
  | [] => p = None
  | c :: fs =>
      p = Some c.1 ∧
      ∃ nx, h !! c.1 = Some (Node (Object c.2) nx) ∧ rseg h nx fs
  end.

(** [shape q cells b fs lost]: as [holds], with the nodes named, the
    objects left in the nodes of the free list, and the rest of the heap:
    the zeroed nodes [lost] that no pointer of the queue leads to. *)
Definition shape (q : queue) (cells : list (addr * T)) (b : addr)
  (fs : list (addr * T)) (lost : list addr) : Prop :=
  ∃ f : addr,
    front_ q = End false (Some f) ∧
    back_ q = End false (Some b) ∧
    lseg (heap q) f cells b ∧
    heap q !! b = Some (Node Zeroed None) ∧
    rseg (heap q) (free_list_ q) fs ∧
    NoDup (cells.*1 ++ b :: fs.*1 ++ lost) ∧
    (∀ a, is_Some (heap q !! a) → a ∈ cells.*1 ++ b :: fs.*1 ++ lost) ∧
    (∀ a, a ∈ lost → heap q !! a = Some (Node Zeroed None)) ∧
    (∀ a, (next_block q ≤ a)%positive → heap q !! a = None).

(** *** A single-threaded driver *)

Inductive op : Type :=
| Push (v : T)
| PushRvalue (v : T)
| Pop
| TryPop
| Empty.

(** What was pushed and what the pop-family calls returned, both in call
    order. *)
Record history := History { pushed : list T; popped : list T }.

Definition step (o : op) (h : history) : M history :=
  match o with
  | Push v => push v;; ret (History (pushed h ++ [v]) (popped h))
  | PushRvalue v => push_rvalue v;; ret (History (pushed h ++ [v]) (popped h))
  | Pop => let* x := pop in ret (History (pushed h) (popped h ++ [x]))
  | TryPop =>
      let* r := try_pop in
      ret (match r with
           | Some x => History (pushed h) (popped h ++ [x])
           | None => h
           end)
  | Empty => empty;; ret h
  end.

Fixpoint run (ops : list op) (h : history) : M history :=
  match ops with
  | [] => ret h
  | o :: ops => let* h := step o h in run ops h
  end.

(** The FIFO buffer the calls are meant to behave as, on a list: what
    [ops] does to a buffer that holds [xs] and has room for [room] values
    in all, with the history it leaves; [None] when a [pop] is made on the
    empty buffer, where it would wait for ever, or a push without room. *)
Fixpoint fifo_run (room : nat) (ops : list op) (h : history) (xs : list T)
  : option (history * list T) :=
  match ops with
  | [] => Some (h, xs)
  | Push v :: ops | PushRvalue v :: ops =>
      if decide (length xs < room)%nat
      then fifo_run room ops (History (pushed h ++ [v]) (popped h)) (xs ++ [v])
      else None
  | Pop :: ops =>
      match xs with
      | x :: xs => fifo_run room ops (History (pushed h) (popped h ++ [x])) xs
      | [] => None
      end
  | TryPop :: ops =>
      match xs with
      | x :: xs => fifo_run room ops (History (pushed h) (popped h ++ [x])) xs
      | [] => fifo_run room ops h xs
      end
  | Empty :: ops => fifo_run room ops h xs
  end.

(** The states a single thread can bring a constructed queue to; a caller
    that catches the exception of a call goes on with the queue. *)
Inductive reachable : queue → Prop :=
| reachable_make blocks throws q :
    make blocks throws = Returns tt q → reachable q
| reachable_step o h q h' q' :
    reachable q → step o h q = Returns h' q' → reachable q'
| reachable_throw o h q q' :
    reachable q → step o h q = Throws q' → reachable q'.

End linked_blocking_queue.

Global Arguments storage : clear implicits.
Global Arguments node : clear implicits.
Global Arguments queue : clear implicits.
Global Arguments outcome : clear implicits.
Global Arguments M : clear implicits.
Global Arguments op : clear implicits.
Global Arguments history : clear implicits.

(** Element types for examples: numbers whose move constructor copies,
    with constructors that may throw and a trivial destructor; the same
    with a copy constructor declared [noexcept]; and the same with a
    destructor that is not trivial. *)
Definition nat_element : Element nat :=
  {| moved_from := λ v, v;
     is_nothrow_copy_constructible := false;
     is_nothrow_move_constructible := false;
     is_trivially_destructible := true |}.

Definition nothrow_copy_element : Element nat :=
  {| moved_from := λ v, v;
     is_nothrow_copy_constructible := true;
     is_nothrow_move_constructible := false;
     is_trivially_destructible := true |}.


(** States for examples: a queue built with two blocks to allocate, and
    that queue after [push 7], with the constructors to come throwing as
    [throws] says. *)
Definition fresh_with (throws : list bool) : queue nat :=
  Queue (<[1%positive := Node Zeroed None]> ∅) 2%positive 1 throws None
    (End false (Some 1%positive)) (End false (Some 1%positive)).

Definition seven_with (throws : list bool) : queue nat :=
  Queue (<[1%positive := Node (Object 7%nat) (Some 2%positive)]>
           (<[2%positive := Node Zeroed None]> ∅))
    3%positive 0 throws None
    (End false (Some 1%positive)) (End false (Some 2%positive)).

(** That queue after the 7 was popped. *)
Definition seven_popped_with (throws : list bool) : queue nat :=
  Queue (<[1%positive := Node (Object 7%nat) None]>
           (<[2%positive := Node Zeroed None]> ∅))
    3%positive 0 throws (Some 1%positive)
    (End false (Some 2%positive)) (End false (Some 2%positive)).

(** The same three where no constructor throws. *)
Definition fresh : queue nat := fresh_with [].

Definition with_seven : queue nat := seven_with [].

Definition seven_popped : queue nat := seven_popped_with [].


End LinkedBlockingQueue.

(** ** Facts about [array_blocking_queue<T>] *)

Module ArrayBlockingQueueFacts.

Import SizeT ArrayBlockingQueue.

(** *** Arithmetic of tickets and turns *)

Lemma modulus_pos : 0 < modulus.
Proof. reflexivity. Qed.

Lemma wrap_small z : 0 ≤ z < modulus → wrap z = z.
Proof. intros. apply Z.mod_small; lia. Qed.

Lemma wrap_succ z : wrap (wrap z + 1) = wrap (z + 1).
Proof. unfold wrap. apply Z.add_mod_idemp_l. discriminate. Qed.

Lemma wrap_parity z : wrap z mod 2 = z mod 2.
Proof.
unfold wrap. apply Z.mod_mod_divide. exists (2 ^ 63). reflexivity.
Qed.

Lemma wrap_even_odd a b : wrap (2 * a) ≠ wrap (2 * b + 1).
Proof.
intros E. apply (f_equal (λ z, z mod 2)) in E.
rewrite !wrap_parity in E.
rewrite (Z.mul_comm 2 a), Z.mod_mul in E by lia.
rewrite (Z.mul_comm 2 b), Z.add_comm, Z.mod_add in E by lia.
discriminate.
Qed.

Section capacity.

Variable c : Z.
Hypothesis Hc : valid_capacity c.

Lemma capacity_range : 2 ≤ c ∧ 2 * c ≤ modulus.
Proof.
  destruct Hc as (j & Hj & ->). unfold bits in Hj. split.
  - change 2 with (2 ^ 1) at 1. apply Z.pow_le_mono_r; lia.
  - change (2 * 2 ^ j) with (2 ^ 1 * 2 ^ j).
    rewrite <- Z.pow_add_r by lia. unfold modulus, bits.
    apply Z.pow_le_mono_r; lia.
Qed.

Lemma capacity_divides : (c | modulus).
Proof.
  destruct Hc as (j & Hj & ->). unfold bits in Hj.
  exists (2 ^ (64 - j)). rewrite <- Z.pow_add_r by lia.
  unfold modulus, bits. f_equal. lia.
Qed.

Lemma capacity_mask : wrap (c - 1) = c - 1.
Proof. pose proof capacity_range. apply wrap_small. lia. Qed.

Lemma land_mask t : Z.land (wrap t) (c - 1) = t mod c.
Proof.
  pose proof capacity_divides as Hd.
  destruct Hc as (j & Hj & ->).
  replace (2 ^ j - 1) with (Z.ones j) by (rewrite Z.ones_equiv; lia).
  rewrite Z.land_ones by lia. unfold wrap. by apply Z.mod_mod_divide.
Qed.

Lemma quotient_small t : 0 ≤ t < modulus → 0 ≤ 2 * (t / c) + 1 < modulus.
Proof.
  pose proof capacity_range as [H2 _]. intros Ht.
  assert (0 ≤ t / c) by (apply Z.div_pos; lia).
  assert (t / c ≤ t / 2) by (apply Z.div_le_compat_l; lia).
  assert (2 * (t / 2) ≤ t) by (apply Z.mul_div_le; lia).
  unfold modulus, bits in *. lia.
Qed.

(** With capacity 2 the turn of a ticket is the same before and after
    the ticket counter wraps. *)
Lemma turn_wrap_two t : c = 2 → wrap (wrap t / c * 2) = wrap (2 * (t / c)).
Proof.
  intros ->. unfold wrap.
  pose proof (Z.mod_pos_bound t modulus modulus_pos) as Hr.
  pose proof (Z.div_mod t modulus ltac:(discriminate)) as Ht.
  set (r := t mod modulus) in *. set (k := t / modulus) in *.
  assert (Hq : t / 2 = 2 ^ 63 * k + r / 2).
  { rewrite Ht. change modulus with (2 ^ 63 * 2).
    rewrite <- Z.mul_assoc, (Z.mul_comm 2 k), Z.mul_assoc.
    apply Z.div_add_l. lia. }
  assert (0 ≤ r / 2) by (apply Z.div_pos; lia).
  assert (2 * (r / 2) ≤ r) by (apply Z.mul_div_le; lia).
  rewrite Hq.
  replace (2 * (2 ^ 63 * k + r / 2)) with (r / 2 * 2 + k * modulus)
    by (change modulus with (2 ^ 63 * 2); lia).
  rewrite Z.mod_add by discriminate. reflexivity.
Qed.

Lemma residues_differ a b : 0 < b - a < c → a mod c ≠ b mod c.
Proof.
  pose proof capacity_range as [H2 _]. intros Hab E.
  assert (Hz : (b - a) mod c = 0).
  { rewrite Zminus_mod, E, Z.sub_diag. apply Z.mod_0_l. lia. }
  rewrite Z.mod_small in Hz; lia.
Qed.

Lemma index_differ a b :
  0 < b - a < c → Z.to_nat (a mod c) ≠ Z.to_nat (b mod c).
Proof.
  pose proof capacity_range as [H2 _]. intros Hab E.
  apply (residues_differ a b Hab).
  pose proof (Z.mod_pos_bound a c ltac:(lia)).
  pose proof (Z.mod_pos_bound b c ltac:(lia)). lia.
Qed.

Lemma index_in_array t : (Z.to_nat (t mod c) < Z.to_nat c)%nat.
Proof.
  pose proof capacity_range as [H2 _].
  pose proof (Z.mod_pos_bound t c ltac:(lia)). lia.
Qed.

End capacity.


(** *** Tickets, turns and the representation *)

Section representation.

Context {T : Type}.
Implicit Types (q : queue T) (xs : list T) (H t : Z).

Lemma idx_of_ticket q t :
  valid_capacity (capacity_ q) → get_idx q (wrap t) = t mod capacity_ q.
Proof.
  intros Hc. unfold get_idx.
  rewrite (capacity_mask _ Hc). by apply land_mask.
Qed.

Lemma write_turn_of_ticket q t :
  valid_capacity (capacity_ q) →
  capacity_ q = 2 ∨ 0 ≤ t < modulus →
  get_write_turn q (wrap t) = wrap (2 * (t / capacity_ q)).
Proof.
  intros Hc [H2|Ht]; unfold get_write_turn.
  - by apply turn_wrap_two.
  - rewrite (wrap_small t) by done. f_equal. lia.
Qed.

Lemma read_turn_of_ticket q t :
  valid_capacity (capacity_ q) →
  capacity_ q = 2 ∨ 0 ≤ t < modulus →
  get_read_turn q (wrap t) = wrap (2 * (t / capacity_ q) + 1).
Proof.
  intros Hc Ht.
  pose proof (write_turn_of_ticket q t Hc Ht) as E.
  unfold get_read_turn, get_write_turn in *. rewrite E. apply wrap_succ.
Qed.

Lemma fresh_holds c q :
  valid_capacity c → make true c = Built q → holds q 0 [].
Proof.
  intros Hc. pose proof (capacity_range c Hc) as [H2 HM].
  unfold make. destruct (1 <? c) eqn:E1; [|done]. simpl.
  destruct (c mod 2 =? 0); [|done]. simpl. intros [= <-].
  repeat split; simpl; try done; try lia.
  - by rewrite length_replicate.
  - intros t Ht. rewrite Z.add_0_r in Ht.
    rewrite Z.div_small by lia. rewrite Z.mod_small by lia.
    rewrite lookup_replicate_2 by lia. reflexivity.
Qed.

Lemma make_valid c :
  valid_capacity c →
  make true c = Built (Queue c (replicate (Z.to_nat c) (Slot (T:=T) 0 [])) 0 0).
Proof.
  intros Hc. pose proof (capacity_range c Hc) as [H2 HM].
  destruct Hc as (j & Hj & ->). unfold make.
  destruct (1 <? 2 ^ j) eqn:E1; [|lia]. simpl.
  replace (2 ^ j) with (2 ^ (j - 1) * 2) at 1
    by (rewrite Z.mul_comm, <- Z.pow_succ_r by lia; f_equal; lia).
  rewrite Z.mod_mul by lia. reflexivity.
Qed.


(** *** What each operation does to the sequence *)

(** A queue with room, whose ticket counter has not run out, accepts. *)

Lemma push_accepts q H xs v n :
  holds q H xs →
  Z.of_nat (length xs) < capacity_ q →
  capacity_ q = 2 ∨ H + Z.of_nat (length xs) < modulus →
  ∃ q', emplace v q = Returns tt q' ∧
        try_emplace (S n) v q = Returns true q' ∧
        holds q' H (xs ++ [v]).
Proof.
  intros (Hc & Hlen & HH & Hsz & Hlim & Hhd & Htl & Hfull & Hfree) Hlt Hlive.
  pose proof (capacity_range _ Hc) as [H2 HM].
  set (c := capacity_ q) in *.
  set (t := H + Z.of_nat (length xs)) in *.
  assert (Hlive' : c = 2 ∨ 0 ≤ t < modulus) by lia.
  pose proof (Hfree t ltac:(lia)) as Hslot.
  pose proof (idx_of_ticket q t Hc) as Hi.
  pose proof (write_turn_of_ticket q t Hc Hlive') as Hw.
  pose proof (read_turn_of_ticket q t Hc Hlive') as Hr.
  rewrite <- Htl in Hi, Hw, Hr. fold c in Hi, Hw, Hr.
  eexists. split; [|split].
  - unfold emplace.
    change (get_idx (set_tail _ q)) with (get_idx q).
    change (get_write_turn (set_tail _ q)) with (get_write_turn q).
    change (array_ (set_tail _ q)) with (array_ q).
    rewrite Hi, Hslot. cbn [turn_]. rewrite Hw, Z.eqb_refl. cbn [negb].
    reflexivity.
  - unfold try_emplace, try_emplace_from.
    rewrite Hi, Hslot. cbn [turn_]. rewrite Hw, Z.eqb_refl.
    unfold compare_exchange. rewrite Z.eqb_refl. reflexivity.
  - unfold done_writing, construct.
    change (get_read_turn (set_tail _ q)) with (get_read_turn q).
    rewrite Hr. cbn [val_ turn_].
    assert (Hin := index_in_array c Hc t).
    repeat split; cbn [capacity_ array_ head_ tail_ set_slot set_tail]; fold c.
    + done.
    + by rewrite length_insert.
    + done.
    + rewrite length_app. simpl. lia.
    + rewrite length_app. simpl. lia.
    + done.
    + rewrite Htl, wrap_succ, length_app. simpl. f_equal. lia.
    + intros i x Hix.
      destruct (decide (i < length xs)%nat) as [Hi'|Hi'].
      * rewrite lookup_app_l in Hix by done.
        rewrite list_lookup_insert_ne; [by apply Hfull|].
        apply not_eq_sym, index_differ; [done|]. unfold t. lia.
      * assert (i = length xs) as ->.
        { apply lookup_lt_Some in Hix. rewrite length_app in Hix. simpl in Hix. lia. }
        rewrite lookup_app_r, Nat.sub_diag in Hix by done. simplify_eq/=.
        fold t. rewrite list_lookup_insert_eq by lia. done.
    + intros t' Ht'. rewrite length_app in Ht'. simpl in Ht'.
      rewrite list_lookup_insert_ne; [apply Hfree; lia|].
      apply index_differ; [done|]. lia.
Qed.

(** A queue that holds [capacity_] values refuses one more. *)
Lemma push_full q H xs v n :
  holds q H xs →
  Z.of_nat (length xs) = capacity_ q →
  emplace v q = Spins (set_tail (wrap (tail_ q + 1)) q) ∧
  try_emplace (S n) v q = Returns false q.
Proof.
  intros (Hc & Hlen & HH & Hsz & Hlim & Hhd & Htl & Hfull & Hfree) Hlt.
  pose proof (capacity_range _ Hc) as [H2 HM].
  set (c := capacity_ q) in *.
  set (t := H + Z.of_nat (length xs)) in *.
  destruct xs as [|x xs]; [simpl in Hlt; lia|].
  pose proof (Hfull 0%nat x eq_refl) as Hslot.
  rewrite Z.add_0_r in Hslot.
  assert (Ht : t mod c = H mod c).
  { unfold t. rewrite Hlt. rewrite <- (Z.mul_1_l c) at 1.
    apply Z.mod_add. lia. }
  pose proof (idx_of_ticket q t Hc) as Hi.
  rewrite <- Htl in Hi. fold c in Hi. rewrite Ht in Hi.
  assert (Hw : (get_write_turn q (tail_ q) =? wrap (2 * (H / c) + 1)) = false).
  { apply Z.eqb_neq. unfold get_write_turn.
    rewrite (Z.mul_comm _ 2). apply wrap_even_odd. }
  split.
  - unfold emplace.
    change (get_idx (set_tail _ q)) with (get_idx q).
    change (get_write_turn (set_tail _ q)) with (get_write_turn q).
    change (array_ (set_tail _ q)) with (array_ q).
    rewrite Hi, Hslot. cbn [turn_]. rewrite Hw. reflexivity.
  - unfold try_emplace, try_emplace_from.
    rewrite Hi, Hslot. cbn [turn_]. rewrite Hw, Z.eqb_refl. reflexivity.
Qed.

(** With a capacity above 2, the slots are out of step with the ticket
    counter once it has wrapped: nothing more is accepted. *)
Lemma push_after_wrap q H xs v n :
  holds q H xs →
  2 < capacity_ q →
  H + Z.of_nat (length xs) = modulus →
  emplace v q = Spins (set_tail (wrap (tail_ q + 1)) q) ∧
  try_emplace (S n) v q = Returns false q.
Proof.
  intros Hq Hc2 HT.
  destruct (decide (Z.of_nat (length xs) = capacity_ q)) as [Hfl|Hnf].
  { by apply (push_full q H xs). }
  destruct Hq as (Hc & Hlen & HH & Hsz & Hlim & Hhd & Htl & Hfull & Hfree).
  pose proof (capacity_range _ Hc) as [H2 HM].
  pose proof (capacity_divides _ Hc) as [k Hk].
  set (c := capacity_ q) in *.
  rewrite HT in Htl, Hfree.
  pose proof (Hfree modulus ltac:(lia)) as Hslot.
  pose proof (idx_of_ticket q modulus Hc) as Hi.
  rewrite <- Htl in Hi. fold c in Hi.
  assert (Hk4 : 0 < k ∧ 2 * k < modulus) by nia.
  assert (Hdiv : modulus / c = k) by (rewrite Hk; apply Z.div_mul; lia).
  assert (Hw : (get_write_turn q (tail_ q) =? wrap (2 * (modulus / c))) = false).
  { apply Z.eqb_neq. rewrite Htl. unfold get_write_turn. fold c.
    rewrite Hdiv, (wrap_small (2 * k)) by lia.
    unfold wrap at 2. rewrite Z.mod_same by discriminate.
    rewrite Z.div_0_l by lia. unfold wrap. rewrite Z.mod_0_l by discriminate.
    lia. }
  split.
  - unfold emplace.
    change (get_idx (set_tail _ q)) with (get_idx q).
    change (get_write_turn (set_tail _ q)) with (get_write_turn q).
    change (array_ (set_tail _ q)) with (array_ q).
    rewrite Hi, Hslot. cbn [turn_]. rewrite Hw. reflexivity.
  - unfold try_emplace, try_emplace_from.
    rewrite Hi, Hslot. cbn [turn_]. rewrite Hw, Z.eqb_refl. reflexivity.
Qed.

Lemma pop_oldest q H x xs val n :
  holds q H (x :: xs) →
  ∃ q', pop val q = Returns x q' ∧
        try_pop (S n) val q = Returns (true, x) q' ∧
        holds q' (H + 1) xs.
Proof.
  intros (Hc & Hlen & HH & Hsz & Hlim & Hhd & Htl & Hfull & Hfree).
  pose proof (capacity_range _ Hc) as [H2 HM].
  set (c := capacity_ q) in *. simpl length in *.
  assert (Hlive : c = 2 ∨ 0 ≤ H < modulus) by lia.
  pose proof (Hfull 0%nat x eq_refl) as Hslot.
  rewrite Z.add_0_r in Hslot.
  pose proof (idx_of_ticket q H Hc) as Hi.
  pose proof (read_turn_of_ticket q H Hc Hlive) as Hr.
  rewrite <- Hhd in Hi, Hr. fold c in Hi, Hr.
  eexists. split; [|split].
  - unfold pop.
    change (get_idx (set_head _ q)) with (get_idx q).
    change (get_read_turn (set_head _ q)) with (get_read_turn q).
    change (array_ (set_head _ q)) with (array_ q).
    rewrite Hi, Hslot. cbn [turn_]. rewrite Hr, Z.eqb_refl. cbn [negb].
    unfold take. cbn [val_]. reflexivity.
  - unfold try_pop, try_pop_from.
    rewrite Hi, Hslot. cbn [turn_]. rewrite Hr, Z.eqb_refl.
    unfold compare_exchange. rewrite Z.eqb_refl.
    unfold take. cbn [val_]. reflexivity.
  - unfold done_reading, destroy. cbn [val_ turn_ tail].
    assert (Hin := index_in_array c Hc H).
    repeat split; cbn [capacity_ array_ head_ tail_ set_slot set_head]; fold c.
    + done.
    + by rewrite length_insert.
    + lia.
    + lia.
    + lia.
    + by rewrite Hhd, wrap_succ.
    + rewrite Htl. f_equal. lia.
    + intros i y Hiy.
      rewrite list_lookup_insert_ne.
      * replace (H + 1 + Z.of_nat i) with (H + Z.of_nat (S i)) by lia.
        by apply Hfull.
      * apply index_differ; [done|].
        apply lookup_lt_Some in Hiy. lia.
    + intros t Ht.
      destruct (decide (t = H + c)) as [->|Hne].
      * replace ((H + c) mod c) with (H mod c)
          by (rewrite <- (Z.mul_1_l c) at 2; symmetry; apply Z.mod_add; lia).
        rewrite list_lookup_insert_eq by lia.
        replace ((H + c) / c) with (H / c + 1)
          by (rewrite <- (Z.mul_1_l c) at 2; symmetry; apply Z.div_add; lia).
        rewrite wrap_succ. replace (2 * (H / c) + 1 + 1) with (2 * (H / c + 1)) by lia. done.
      * rewrite list_lookup_insert_ne; [apply Hfree; lia|].
        apply index_differ; [done|]. lia.
Qed.

Lemma pop_on_empty q H val n :
  holds q H [] →
  pop val q = Spins (set_head (wrap (head_ q + 1)) q) ∧
  try_pop (S n) val q = Returns (false, val) q.
Proof.
  intros (Hc & Hlen & HH & Hsz & Hlim & Hhd & Htl & Hfull & Hfree).
  pose proof (capacity_range _ Hc) as [H2 HM].
  set (c := capacity_ q) in *. simpl length in *.
  rewrite Z.add_0_r in *.
  pose proof (Hfree H ltac:(lia)) as Hslot.
  pose proof (idx_of_ticket q H Hc) as Hi.
  rewrite <- Hhd in Hi. fold c in Hi.
  assert (Hr : (get_read_turn q (head_ q) =? wrap (2 * (H / c))) = false).
  { apply Z.eqb_neq. unfold get_read_turn. rewrite wrap_succ.
    rewrite (Z.mul_comm _ 2). apply not_eq_sym, wrap_even_odd. }
  split.
  - unfold pop.
    change (get_idx (set_head _ q)) with (get_idx q).
    change (get_read_turn (set_head _ q)) with (get_read_turn q).
    change (array_ (set_head _ q)) with (array_ q).
    rewrite Hi, Hslot. cbn [turn_]. rewrite Hr. reflexivity.
  - unfold try_pop, try_pop_from.
    rewrite Hi, Hslot. cbn [turn_]. rewrite Hr, Z.eqb_refl. reflexivity.
Qed.

End representation.

(** *** The driver keeps the queue a FIFO sequence *)

Section driver.

Context {T : Type}.
Implicit Types (q : queue T) (xs : list T) (H t : Z) (h : history T).

Lemma emplace_spec q H xs v n :
  holds q H xs →
  (∃ q', emplace v q = Returns tt q' ∧
         try_emplace (S n) v q = Returns true q' ∧
         holds q' H (xs ++ [v])) ∨
  (emplace v q = Spins (set_tail (wrap (tail_ q + 1)) q) ∧
   try_emplace (S n) v q = Returns false q).
Proof.
  intros Hq. pose proof Hq as (Hc & _ & _ & Hsz & Hlim & _).
  pose proof (capacity_range _ Hc) as [H2 _].
  destruct (decide (Z.of_nat (length xs) = capacity_ q)) as [Hfl|Hnf].
  { right. by apply (push_full q H xs). }
  destruct (decide (2 < capacity_ q ∧ H + Z.of_nat (length xs) = modulus))
    as [[Hc2 Hex]|Hlive].
  { right. by apply (push_after_wrap q H xs). }
  left. apply push_accepts; [done|lia|lia].
Qed.

Lemma pop_family_spec q H xs val n :
  holds q H xs →
  match xs with
  | x :: xs' =>
      ∃ q', pop val q = Returns x q' ∧
            try_pop (S n) val q = Returns (true, x) q' ∧
            holds q' (H + 1) xs'
  | [] =>
      pop val q = Spins (set_head (wrap (head_ q + 1)) q) ∧
      try_pop (S n) val q = Returns (false, val) q
  end.
Proof.
  intros Hq. destruct xs; [by apply (pop_on_empty q H)|by apply pop_oldest].
Qed.

(** One call of the driver keeps the queue a FIFO sequence: what it
    appended and what it took away are accounted for at the two ends. *)
Lemma step_fifo fuel o val h q H xs r q' :
  holds q H xs →
  step fuel o val h q = Returns r q' →
  ∃ H' xs' ins outs,
    holds q' H' xs' ∧
    pushed r.2 = pushed h ++ ins ∧
    popped r.2 = popped h ++ outs ∧
    xs ++ ins = outs ++ xs'.
Proof.
  intros Hq Hstep. destruct o as [v|v| |]; unfold step in Hstep.
  - destruct (emplace_spec q H xs v 0 Hq) as [(q1 & E & _ & Hq1)|[E _]];
      unfold push in Hstep; rewrite E in Hstep; simplify_eq/=.
    exists H, (xs ++ [v]), [v], []. by rewrite app_nil_r.
  - destruct fuel as [|n]; [by cbv in Hstep|].
    destruct (emplace_spec q H xs v n Hq) as [(q1 & _ & E & Hq1)|[_ E]];
      unfold try_push in Hstep; rewrite E in Hstep; simplify_eq/=.
    + exists H, (xs ++ [v]), [v], []. by rewrite app_nil_r.
    + exists H, xs, [], []. by rewrite !app_nil_r.
  - pose proof (pop_family_spec q H xs val 0 Hq) as Hp.
    destruct xs as [|x xs]; [destruct Hp as [E _]|destruct Hp as (q1 & E & _ & Hq1)];
      rewrite E in Hstep; simplify_eq/=.
    exists (H + 1), xs, [], [x]. by rewrite !app_nil_r.
  - destruct fuel as [|n]; [by cbv in Hstep|].
    pose proof (pop_family_spec q H xs val n Hq) as Hp.
    destruct xs as [|x xs]; [destruct Hp as [_ E]|destruct Hp as (q1 & _ & E & Hq1)];
      rewrite E in Hstep; simplify_eq/=.
    + exists H, [], [], []. by rewrite !app_nil_r.
    + exists (H + 1), xs, [], [x]. by rewrite !app_nil_r.
Qed.

Lemma run_fifo fuel ops val h q H xs r q' :
  holds q H xs →
  pushed h = popped h ++ xs →
  run fuel ops val h q = Returns r q' →
  ∃ H' xs', holds q' H' xs' ∧ pushed r.2 = popped r.2 ++ xs'.
Proof.
  revert val h q H xs. induction ops as [|o ops IH]; intros val h q H xs Hq Hh Hrun.
  - simplify_eq/=. eauto.
  - simpl in Hrun.
    destruct (step fuel o val h q) as [[val1 h1] q1| | |] eqn:Hstep; try done.
    destruct (step_fifo _ _ _ _ _ _ _ _ _ Hq Hstep)
      as (H1 & xs1 & ins & outs & Hq1 & Hin & Hout & Hbal).
    simpl in *. eapply IH; [exact Hq1| |exact Hrun].
    rewrite Hin, Hout, Hh, <- !app_assoc. by f_equal.
Qed.

Lemma reachable_represents q : reachable q → ∃ xs, represents q xs.
Proof.
  induction 1 as [c q Hc Hmk|fuel o val h q r q' _ (xs & H & Hq) Hstep].
  - exists [], 0. by eapply fresh_holds.
  - destruct (step_fifo _ _ _ _ _ _ _ _ _ Hq Hstep) as (H1 & xs1 & _ & _ & Hq1 & _).
    by exists xs1, H1.
Qed.

Lemma wrap_shift a k : 0 ≤ k < modulus → wrap a = wrap (a + k) → k = 0.
Proof.
  intros Hk E. unfold wrap in E.
  assert (Hz : k mod modulus = 0).
  { replace k with (a + k - a) by lia.
    rewrite Zminus_mod, <- E, Z.sub_diag. reflexivity. }
  rewrite Z.mod_small in Hz; lia.
Qed.

Lemma holds_drained q H xs : holds q H xs → head_ q = tail_ q → xs = [].
Proof.
  intros (Hc & _ & _ & Hsz & _ & Hhd & Htl & _) E.
  pose proof (capacity_range _ Hc) as [H2 HM].
  rewrite Hhd, Htl in E. apply wrap_shift in E; [|lia].
  destruct xs; [done|simpl in E; lia].
Qed.


Lemma run_append fuel ops1 ops2 val h q :
  run fuel (ops1 ++ ops2) val h q
  = bind (run fuel ops1 val h q) (λ r q, run fuel ops2 r.1 r.2 q).
Proof.
  revert val h q. induction ops1 as [|o ops1 IH]; intros val h q; [done|].
  simpl. destruct (step fuel o val h q) as [[val1 h1] q1| | |]; simpl; auto.
Qed.

(** Push-family calls go through while there is room. *)
Lemma run_push_calls n (ws : list (bool * T)) q H xs val h :
  holds q H xs →
  Z.of_nat (length xs) + Z.of_nat (length ws) ≤ capacity_ q →
  capacity_ q = 2 ∨ H + Z.of_nat (length xs) + Z.of_nat (length ws) ≤ modulus →
  ∃ q', holds q' H (xs ++ ws.*2) ∧ capacity_ q' = capacity_ q ∧
        run (S n) (push_call <$> ws) val h q
        = Returns (val, History (pushed h ++ ws.*2) (popped h)) q'.
Proof.
  revert q xs h. induction ws as [|[b v] ws IH]; intros q xs h Hq Hroom Hlive.
  - exists q. rewrite !app_nil_r. by destruct h.
  - simpl length in *.
    destruct (push_accepts q H xs v n Hq ltac:(lia) ltac:(lia))
      as (q1 & E1 & E2 & Hq1).
    assert (Hcap : capacity_ q1 = capacity_ q).
    { unfold emplace in E1. destruct (array_ _ !! _); [|done].
      destruct (negb _); by simplify_eq. }
    destruct (IH q1 (xs ++ [v]) (History (pushed h ++ [v]) (popped h)) Hq1)
      as (q2 & Hq2 & Hcap2 & E).
    { rewrite length_app, Hcap. simpl. lia. }
    { rewrite length_app, Hcap. simpl. lia. }
    exists q2. rewrite <- !app_assoc in Hq2. split; [done|]. split; [congruence|].
    simpl in E. rewrite <- app_assoc in E. simpl in E.
    destruct b; simpl; unfold push_call; simpl.
    + unfold try_push. rewrite E2. simpl. exact E.
    + unfold push. rewrite E1. simpl. exact E.
Qed.

Lemma last_cons_default (x val : T) xs :
  default val (last (x :: xs)) = default x (last xs).
Proof.
  destruct xs as [|y l]; [done|].
  change (last (x :: y :: l)) with (last (y :: l)).
  destruct (last (y :: l)) eqn:E; [done|]. by apply last_None in E.
Qed.

(** Pop-family calls hand out the oldest values, oldest first. *)
Lemma run_pop_calls n (bs : list bool) q H xs ys val h :
  length bs = length xs →
  holds q H (xs ++ ys) →
  ∃ q', holds q' (H + Z.of_nat (length xs)) ys ∧
        run (S n) (pop_call T <$> bs) val h q
        = Returns (default val (last xs), History (pushed h) (popped h ++ xs)) q'.
Proof.
  revert q H xs val h.
  induction bs as [|b bs IH]; intros q H [|x xs] val h Hlen Hq; try done.
  - exists q. rewrite Z.add_0_r, app_nil_r. by destruct h.
  - destruct (pop_oldest q H x (xs ++ ys) val n Hq) as (q1 & E1 & E2 & Hq1).
    destruct (IH q1 (H + 1) xs x (History (pushed h) (popped h ++ [x])))
      as (q2 & Hq2 & E); [by simplify_eq/=|done|].
    exists q2. split.
    { replace (H + Z.of_nat (length (x :: xs))) with (H + 1 + Z.of_nat (length xs))
        by (simpl; lia). done. }
    simpl in E. rewrite <- app_assoc in E. simpl in E.
    rewrite last_cons_default.
    destruct b; simpl; unfold pop_call; simpl.
    + rewrite E2. simpl. exact E.
    + rewrite E1. simpl. exact E.
Qed.

Lemma has_val_odd (s : slot_t T) : has_val s = Z.odd (turn_ s).
Proof.
  unfold has_val. change 1 with (Z.ones 1). rewrite Z.land_ones by lia.
  change (2 ^ 1) with 2. rewrite Zmod_odd. by destruct (Z.odd (turn_ s)).
Qed.

Lemma wrap_odd z : Z.odd (wrap z) = Z.odd z.
Proof.
  pose proof (wrap_parity z) as E. rewrite !Zmod_odd in E.
  destruct (Z.odd (wrap z)), (Z.odd z); done.
Qed.

(** Every slot of the array serves one of the [capacity_] tickets from
    the head on. *)
Lemma ticket_of_index c H (i : nat) :
  valid_capacity c → (i < Z.to_nat c)%nat →
  ∃ t, H ≤ t < H + c ∧ Z.to_nat (t mod c) = i.
Proof.
  intros Hc Hi. pose proof (capacity_range _ Hc) as [H2 _].
  exists (H + (Z.of_nat i - H) mod c).
  pose proof (Z.mod_pos_bound (Z.of_nat i - H) c ltac:(lia)).
  split; [lia|].
  rewrite Z.add_mod_idemp_r by lia.
  replace (H + (Z.of_nat i - H)) with (Z.of_nat i) by lia.
  rewrite Z.mod_small by lia. lia.
Qed.

Lemma holds_slot q H xs (i : nat) s :
  holds q H xs → array_ q !! i = Some s →
  (∃ x, val_ s = [x] ∧ Z.odd (turn_ s) = true) ∨
  (val_ s = [] ∧ Z.odd (turn_ s) = false).
Proof.
  intros (Hc & Hlen & HH & Hsz & Hlim & Hhd & Htl & Hfull & Hfree) Hs.
  pose proof (capacity_range _ Hc) as [H2 _].
  assert (Hi : (i < Z.to_nat (capacity_ q))%nat).
  { rewrite <- Hlen. by eapply lookup_lt_Some. }
  destruct (ticket_of_index _ H i Hc Hi) as (t & Ht & <-).
  destruct (decide (t < H + Z.of_nat (length xs))) as [Hlt|Hge].
  - destruct (lookup_lt_is_Some_2 xs (Z.to_nat (t - H)) ltac:(lia)) as [x Hx].
    pose proof (Hfull _ _ Hx) as E.
    replace (H + Z.of_nat (Z.to_nat (t - H))) with t in E by lia.
    rewrite E in Hs. simplify_eq/=. left. exists x. split; [done|].
    rewrite wrap_odd, Z.add_comm, Z.odd_add_mul_2. done.
  - rewrite Hfree in Hs by lia. simplify_eq/=. right. split; [done|].
    rewrite wrap_odd. rewrite Z.odd_mul. done.
Qed.

End driver.

End ArrayBlockingQueueFacts.

(** ** Facts about [linked_blocking_queue<T>] *)

Module LinkedBlockingQueueFacts.

Import LinkedBlockingQueue.

(** Runs a call on a state given by its fields, as far as the lookups in
    the heap allow. *)
Ltac exec :=
  cbv beta iota zeta delta
    [try_pop pop pop_locked push push_rvalue insert alloc_node
     alloc_from_free_list alloc_from_allocator malloc memset_zero free_node
     empty make init element_ctor_throws next_ctor_throws ctor_done
     bind ret throw terminate block assert_fails undefined
     load_free_list load_front load_back store_free_list store_front
     store_back lock_front unlock_front lock_back unlock_back
     load_node write_node store_node notify_one
     heap next_block blocks_left ctor_throws free_list_ front_ back_
     lock_ ptr_];
  cbn [val_ next_].

(** Goals about lists of distinct addresses. *)
Ltac nodup :=
  repeat match goal with
  | H : NoDup (_ ++ _) |- _ => apply NoDup_app in H as (? & ? & ?)
  | H : NoDup (_ :: _) |- _ => apply NoDup_cons in H as (? & ?)
  | H : _ ∉ _ ++ _ |- _ => apply not_elem_of_app in H as (? & ?)
  | H : _ ∉ _ :: _ |- _ => apply not_elem_of_cons in H as (? & ?)
  | |- NoDup (_ ++ _) => apply NoDup_app; split_and!
  | |- NoDup (_ :: _) => apply NoDup_cons; split
  | |- NoDup [] => apply NoDup_nil_2
  | |- _ ∉ _ => intros ?
  | |- ∀ _, _ => intros ?
  | H : _ ∈ _ ++ _ |- _ => apply elem_of_app in H as [?|?]
  | H : _ ∈ _ :: _ |- _ => apply elem_of_cons in H as [?|?]
  | H : _ ∈ [] |- _ => by apply elem_of_nil in H
  end;
  subst; try done; try set_solver.

Section segments.

Context {T : Type} `{!Element T}.
Implicit Types (q : queue T) (h : gmap positive (node T)) (xs : list T)
  (cells : list (positive * T)) (fs : list positive).

Lemma lseg_insert_ne h a n p cells b :
  a ∉ cells.*1 → lseg h p cells b → lseg (<[a := n]> h) p cells b.
Proof.
  revert p. induction cells as [|[c x] cells IH]; intros p Ha; [done|].
  simpl in *. intros (-> & p' & Hc & Hrest).
  apply not_elem_of_cons in Ha as [Hne Ha].
  split; [done|]. exists p'. rewrite lookup_insert_ne by done. auto.
Qed.

Lemma fseg_insert_ne h a n p fs :
  a ∉ fs → fseg h p fs → fseg (<[a := n]> h) p fs.
Proof.
  revert p. induction fs as [|f fs IH]; intros p Ha; [done|].
  simpl. intros (-> & m & Hf & Hrest).
  apply not_elem_of_cons in Ha as [Hne Ha].
  split; [done|]. exists m. rewrite lookup_insert_ne by done. auto.
Qed.

Lemma lseg_snoc h p cells b v b' :
  lseg h p cells b →
  h !! b = Some (Node (Object v) (Some b')) →
  lseg h p (cells ++ [(b, v)]) b'.
Proof.
  revert p. induction cells as [|[c x] cells IH]; simpl.
  - intros p -> Hb. eauto.
  - intros p (-> & p' & Hc & Hrest) Hb. eauto.
Qed.

Lemma lseg_allocated h p cells b a :
  lseg h p cells b → a ∈ cells.*1 → is_Some (h !! a).
Proof.
  revert p. induction cells as [|[c x] cells IH]; simpl; intros p.
  - intros _ Ha. by apply elem_of_nil in Ha.
  - intros (-> & p' & Hc & Hrest) [->|Ha]%elem_of_cons; eauto.
Qed.

Lemma holds_ctor_done q xs : holds q xs → holds (ctor_done q) xs.
Proof. intros Hq. exact Hq. Qed.

(** [alloc_node] takes the head of the free list, or a fresh block when
    the free list is empty, and zeroes it. *)
Lemma alloc_node_spec q (live : list positive) fs :
  fseg (heap q) (free_list_ q) fs →
  NoDup (live ++ fs) →
  (∀ a, a ∈ live → is_Some (heap q !! a)) →
  (∀ a, (next_block q ≤ a)%positive → heap q !! a = None) →
  free_list_ q ≠ None ∨ blocks_left q ≠ 0%nat →
  ∃ g fs' q',
    alloc_node q = Returns (Some g) q' ∧
    heap q' = <[g := Node Zeroed None]> (heap q) ∧
    front_ q' = front_ q ∧ back_ q' = back_ q ∧
    ctor_throws q' = ctor_throws q ∧
    (g ∉ live) ∧
    fseg (heap q') (free_list_ q') fs' ∧
    NoDup (live ++ g :: fs') ∧
    (∀ a, (next_block q' ≤ a)%positive → heap q' !! a = None) ∧
    (free_list_ q = None →
     free_list_ q' = None ∧ blocks_left q = S (blocks_left q')).
Proof.
  intros Hfs Hnd Hlive Hfresh Hsome.
  destruct q as [h nb bl th fl fr bk]; simpl in *.
  destruct fs as [|g fs]; simpl in Hfs.
  - subst fl. destruct Hsome as [?|Hbl]; [done|].
    destruct bl as [|k]; [done|].
    assert (Hg : h !! nb = None) by (apply Hfresh; lia).
    exists nb, [], (Queue (<[nb := Node Zeroed None]> h) (Pos.succ nb) k th None fr bk).
    repeat split; simpl.
    + intros Hin. apply Hlive in Hin as [? ?]. congruence.
    + rewrite app_nil_r in Hnd. apply NoDup_app. repeat split; [done| |apply NoDup_singleton].
      intros a Ha ->%list_elem_of_singleton. apply Hlive in Ha as [? ?]. congruence.
    + intros a Ha. rewrite lookup_insert_ne by lia. apply Hfresh. lia.
  - destruct Hfs as (-> & n & Hg & Hrest).
    exists g, fs, (Queue (<[g := Node Zeroed None]> h) nb bl th (next_ n) fr bk).
    apply NoDup_app in Hnd as (Hl & Hdisj & [Hgfs Hfsnd]%NoDup_cons).
    repeat split; simpl.
    + unfold alloc_node, alloc_from_free_list, bind, load_free_list, load_node,
        store_free_list, ret, memset_zero, write_node. simpl. by rewrite Hg.
    + intros Hin. apply (Hdisj g Hin). left.
    + by apply fseg_insert_ne.
    + apply NoDup_app. repeat split; [done|exact Hdisj|by apply NoDup_cons].
    + intros a Ha. assert (a ≠ g).
      { intros ->. apply Hfresh in Ha. congruence. }
      rewrite lookup_insert_ne by done. by apply Hfresh.
    + done.
    + done.
Qed.

Lemma alloc_node_exhausted q :
  free_list_ q = None → blocks_left q = 0%nat → alloc_node q = Undefined.
Proof.
  destruct q as [h nb bl th fl fr bk]; simpl. intros -> ->. reflexivity.
Qed.

(** [insert] when the constructor of the element returns. *)
Lemma insert_returns q xs nothrow v :
  holds q xs →
  free_list_ q ≠ None ∨ blocks_left q ≠ 0%nat →
  next_ctor_throws q = false →
  ∃ q' b b',
    insert nothrow v q = Returns tt q' ∧
    holds q' (xs ++ [v]) ∧
    ptr_ (back_ q) = Some b ∧
    ptr_ (back_ q') = Some b' ∧
    b' ≠ b ∧
    heap q' !! b = Some (Node (Object v) (Some b')) ∧
    heap q' !! b' = Some (Node Zeroed None) ∧
    front_ q' = front_ q ∧
    ctor_throws q' = tail (ctor_throws q) ∧
    (free_list_ q = None →
     free_list_ q' = None ∧ blocks_left q = S (blocks_left q')).
Proof.
  intros (cells & f & b & fs & -> & Hfr & Hbk & Hseg & Hb & Hfs & Hnd & Hfresh) Hsome Hth.
  destruct q as [h nb bl th fl fr bk].
  unfold next_ctor_throws in Hth.
  cbn [heap next_block blocks_left ctor_throws free_list_ front_ back_] in *.
  subst fr bk.
  destruct (alloc_node_spec (Queue h nb bl th fl (End false (Some f)) (End false (Some b)))
              (cells.*1 ++ [b]) fs)
    as (g & fs' & q1 & Halloc & Hheap & Hfr1 & Hbk1 & Hth1 & Hg & Hfs1 & Hnd1 & Hfresh1 & Hfl1);
    [done|by rewrite <- app_assoc| |done|done|].
  { intros a [Ha| ->%list_elem_of_singleton]%elem_of_app; [|by eauto].
    by eapply lseg_allocated. }
  apply not_elem_of_app in Hg as [Hgc Hgb%not_elem_of_cons].
  destruct Hgb as [Hgb _].
  rewrite <- app_assoc in Hnd1. simpl in Hnd1.
  assert (Hbc : b ∉ cells.*1).
  { apply NoDup_app in Hnd as (_ & Hd & _). intros Hin. apply (Hd b Hin). left. }
  destruct q1 as [h1 nb1 bl1 th1 fl1 fr1 bk1].
  cbn [heap next_block blocks_left ctor_throws free_list_ front_ back_] in *.
  subst h1 fr1 bk1 th1.
  assert (Hb1 : <[g := Node Zeroed None]> h !! b = Some (Node Zeroed None))
    by by rewrite lookup_insert_ne.
  set (h2 := <[b := Node (Object v) (Some g)]>
               (<[b := Node (Object v) None]> (<[g := Node Zeroed None]> h))).
  exists (Queue h2 nb1 bl1 (tail th) fl1 (End false (Some f)) (End false (Some g))), b, g.
  assert (Hb2 : h2 !! b = Some (Node (Object v) (Some g))) by apply lookup_insert_eq.
  assert (Hg2 : h2 !! g = Some (Node Zeroed None)).
  { unfold h2. rewrite !lookup_insert_ne by done. apply lookup_insert_eq. }
  split; [|split; [|done]].
  - unfold insert. unfold bind at 1. rewrite Halloc.
    repeat (progress (exec; rewrite ?Hb1, ?Hth, ?lookup_insert_eq)). done.
  - exists (cells ++ [(b, v)]), f, g, fs'. simpl.
    rewrite !fmap_app. simpl. rewrite <- app_assoc. simpl.
    assert (Hbfs : b ∉ fs').
    { apply NoDup_app in Hnd1 as (_ & _ & [Hx _]%NoDup_cons).
      intros Hin. apply Hx. by right. }
    repeat split; try done.
    + apply lseg_snoc; [|done].
      unfold h2. do 3 (apply lseg_insert_ne; [done|]). done.
    + unfold h2. do 2 (apply fseg_insert_ne; [done|]). done.
    + intros a Ha. pose proof (Hfresh1 a Ha) as Hn.
      assert (a ≠ b).
      { intros ->. rewrite lookup_insert_ne, Hb in Hn by done. done. }
      unfold h2. by rewrite !(lookup_insert_ne _ b).
Qed.

(** [insert] when the constructor of the element throws: the node from
    [alloc_node] is zeroed and out of the free list, and nothing else has
    changed. *)
Lemma insert_throws q xs nothrow v :
  holds q xs →
  free_list_ q ≠ None ∨ blocks_left q ≠ 0%nat →
  next_ctor_throws q = true →
  ∃ q' g,
    insert nothrow v q = (if nothrow then Terminates else Throws q') ∧
    holds q' xs ∧
    heap q' = <[g := Node Zeroed None]> (heap q) ∧
    ptr_ (back_ q) ≠ Some g ∧
    front_ q' = front_ q ∧
    back_ q' = back_ q ∧
    ctor_throws q' = tail (ctor_throws q) ∧
    (free_list_ q = None →
     free_list_ q' = None ∧ blocks_left q = S (blocks_left q')).
Proof.
  intros (cells & f & b & fs & -> & Hfr & Hbk & Hseg & Hb & Hfs & Hnd & Hfresh) Hsome Hth.
  destruct q as [h nb bl th fl fr bk].
  unfold next_ctor_throws in Hth.
  cbn [heap next_block blocks_left ctor_throws free_list_ front_ back_] in *.
  subst fr bk.
  destruct (alloc_node_spec (Queue h nb bl th fl (End false (Some f)) (End false (Some b)))
              (cells.*1 ++ [b]) fs)
    as (g & fs' & q1 & Halloc & Hheap & Hfr1 & Hbk1 & Hth1 & Hg & Hfs1 & Hnd1 & Hfresh1 & Hfl1);
    [done|by rewrite <- app_assoc| |done|done|].
  { intros a [Ha| ->%list_elem_of_singleton]%elem_of_app; [|by eauto].
    by eapply lseg_allocated. }
  apply not_elem_of_app in Hg as [Hgc Hgb%not_elem_of_cons].
  destruct Hgb as [Hgb _].
  rewrite <- app_assoc in Hnd1. simpl in Hnd1.
  destruct q1 as [h1 nb1 bl1 th1 fl1 fr1 bk1].
  cbn [heap next_block blocks_left ctor_throws free_list_ front_ back_] in *.
  subst h1 fr1 bk1 th1.
  assert (Hb1 : <[g := Node Zeroed None]> h !! b = Some (Node Zeroed None))
    by by rewrite lookup_insert_ne.
  exists (Queue (<[g := Node Zeroed None]> h) nb1 bl1 (tail th) fl1
            (End false (Some f)) (End false (Some b))), g.
  split_and!; try done.
  - unfold insert. unfold bind at 1. rewrite Halloc.
    repeat (progress (exec; rewrite ?Hb1, ?Hth, ?lookup_insert_eq)).
    by destruct nothrow.
  - exists cells, f, b, fs'. simpl. split_and!; try done.
    + by apply lseg_insert_ne.
    + apply NoDup_app in Hnd1 as (H1 & H2 & [H3 [H4 H5]%NoDup_cons]%NoDup_cons).
      apply NoDup_app. split_and!; [done| |].
      * intros a Ha [->|Hin]%elem_of_cons.
        -- apply (H2 b Ha). left.
        -- apply (H2 a Ha). right. by right.
      * apply NoDup_cons. split; [|done].
        intros Hin. apply H3. by right.
  - intros [= ->]. done.
Qed.

Lemma insert_exhausted q nothrow v :
  free_list_ q = None → blocks_left q = 0%nat → insert nothrow v q = Undefined.
Proof.
  intros Hfl Hbl. unfold insert, bind.
  by rewrite alloc_node_exhausted.
Qed.



Lemma empty_spec q xs :
  holds q xs →
  empty q = Returns (match xs with [] => true | _ => false end) q.
Proof.
  intros (cells & f & b & fs & -> & Hfr & Hbk & Hseg & Hb & _).
  destruct q as [h nb bl th fl fr bk]. cbn [front_ back_ heap] in *. subst fr bk.
  destruct cells as [|[a x] cells]; simpl in Hseg.
  - subst f. exec. by rewrite Hb.
  - destruct Hseg as (-> & p' & Ha & _). exec. by rewrite Ha.
Qed.

Lemma pop_empty q :
  holds q [] → try_pop q = Returns None q ∧ pop q = Blocks q.
Proof.
  intros (cells & f & b & fs & Hxs & Hfr & Hbk & Hseg & Hb & _).
  destruct cells; [|done]. simpl in Hseg. subst f.
  destruct q as [h nb bl th fl fr bk]. cbn [front_ back_ heap] in *. subst fr bk.
  exec. by rewrite Hb.
Qed.

(** A pop-family call on a queue that is not empty, when the move out of
    the node does not throw: [pop] returns, and so does [try_pop] unless
    its second move throws, the node detached and the value gone. *)
Lemma pop_takes q x xs :
  holds q (x :: xs) →
  next_ctor_throws q = false →
  ∃ q' old nxt,
    pop q = Returns x q' ∧
    try_pop q
    = (if next_ctor_throws q'
       then if is_nothrow_move_constructible then Terminates
            else Throws (ctor_done q')
       else Returns (Some x) (ctor_done q')) ∧
    holds q' xs ∧
    ptr_ (front_ q) = Some old ∧
    heap q !! old = Some (Node (Object x) (Some nxt)) ∧
    ptr_ (front_ q') = Some nxt ∧
    heap q' !! old = Some (Node (Object (moved_from x)) (free_list_ q)) ∧
    free_list_ q' = Some old ∧
    back_ q' = back_ q ∧
    ctor_throws q' = tail (ctor_throws q).
Proof.
  intros (cells & f & b & fs & Hxs & Hfr & Hbk & Hseg & Hb & Hfs & Hnd & Hfresh) Hmv.
  destruct cells as [|[a y] cells]; [done|]. simpl in *. simplify_eq/=.
  destruct Hseg as (-> & p' & Ha & Hseg).
  apply NoDup_cons in Hnd as [Hanot Hnd].
  apply not_elem_of_app in Hanot as [Hac [Hab Hafs]%not_elem_of_cons].
  destruct q as [h nb bl th fl fr bk]. simpl in *. subst fr bk.
  unfold next_ctor_throws in Hmv. cbn [ctor_throws] in Hmv.
  set (h' := <[a := Node (Object (moved_from y)) fl]>
               (<[a := Node (Object (moved_from y)) (Some p')]> h)).
  exists (Queue h' nb bl (tail th) (Some a) (End false (Some p')) (End false (Some b))), a, p'.
  split.
  { repeat (progress (exec; rewrite ?Ha, ?Hmv, ?lookup_insert_eq)). done. }
  split.
  { repeat (progress (exec; rewrite ?Ha, ?Hmv, ?lookup_insert_eq)).
    destruct (default false (head (tail th))); [|done].
    by destruct is_nothrow_move_constructible. }
  split; [|repeat split; simpl; try done; apply lookup_insert_eq].
  exists cells, p', b, (a :: fs). simpl. repeat split; try done.
  - unfold h'. do 2 (apply lseg_insert_ne; [done|]). done.
  - unfold h'. by rewrite !lookup_insert_ne.
  - exists (Node (Object (moved_from y)) fl). split; [apply lookup_insert_eq|].
    simpl. unfold h'. do 2 (apply fseg_insert_ne; [done|]). done.
  - apply NoDup_app in Hnd as (H1 & H2 & [H3 H4]%NoDup_cons).
    apply NoDup_app. repeat split; [done| |].
    + intros c Hc [->|[->|Hin]%elem_of_cons]%elem_of_cons; [|done|].
      * apply (H2 b Hc). left.
      * apply (H2 c Hc). by right.
    + apply NoDup_cons. split; [|by apply NoDup_cons].
      intros [->|Hin]%elem_of_cons; done.
  - intros c Hc. pose proof (Hfresh c Hc) as Hn.
    assert (c ≠ a) by (intros ->; congruence).
    unfold h'. by rewrite !lookup_insert_ne.
Qed.

(** And when the move out of the node throws: nothing but the exception,
    or the end of the program where the private [pop] is [noexcept]. *)
Lemma pop_throws q x xs :
  holds q (x :: xs) →
  next_ctor_throws q = true →
  pop q = (if pop_noexcept then Terminates else Throws (ctor_done q)) ∧
  try_pop q = (if pop_noexcept then Terminates else Throws (ctor_done q)).
Proof.
  intros (cells & f & b & fs & Hxs & Hfr & Hbk & Hseg & Hb & _) Hmv.
  destruct cells as [|[a y] cells]; [done|]. simpl in *. simplify_eq/=.
  destruct Hseg as (-> & p' & Ha & Hseg).
  destruct q as [h nb bl th fl fr bk]. simpl in *. subst fr bk.
  unfold next_ctor_throws in Hmv. cbn [ctor_throws] in Hmv.
  repeat (progress (exec; rewrite ?Ha, ?Hmv)).
  by destruct pop_noexcept.
Qed.

End segments.

(** *** The driver keeps the queue a FIFO sequence *)

Section driver.

Context {T : Type} `{!Element T}.
Implicit Types (q : queue T) (h : history T) (xs : list T).

Lemma make_succeeds k throws :
  make (T:=T) (S k) throws
  = Returns tt (Queue (<[1%positive := Node Zeroed None]> ∅) 2%positive k throws
                  None (End false (Some 1%positive)) (End false (Some 1%positive))).
Proof. reflexivity. Qed.

Lemma make_exhausted throws : make (T:=T) 0 throws = Undefined.
Proof. reflexivity. Qed.

Lemma make_holds blocks throws q :
  make blocks throws = Returns tt q → holds q [].
Proof.
  destruct blocks as [|k]; [by rewrite make_exhausted|].
  rewrite make_succeeds. intros [= <-].
  exists [], 1%positive, 1%positive, []. simpl. split_and!; try done.
  - apply NoDup_singleton.
  - intros a Ha. rewrite lookup_insert_ne by lia. apply lookup_empty.
Qed.

(** What a push can do: meet the null pointer that [malloc] gave, end
    with the exception of the element's constructor, or return. *)
Lemma insert_cases q xs nothrow v :
  holds q xs →
  insert nothrow v q = Undefined ∨
  (∃ q', insert nothrow v q = (if nothrow then Terminates else Throws q') ∧
         holds q' xs) ∨
  (∃ q', insert nothrow v q = Returns tt q' ∧ holds q' (xs ++ [v])).
Proof.
  intros Hq.
  assert (Hmem : (free_list_ q = None ∧ blocks_left q = 0%nat) ∨
                 (free_list_ q ≠ None ∨ blocks_left q ≠ 0%nat)).
  { destruct (free_list_ q); [right; by left|].
    destruct (blocks_left q); [by left|right; by right]. }
  destruct Hmem as [[Hfl Hbl]|Hsome].
  { left. by apply insert_exhausted. }
  right. destruct (next_ctor_throws q) eqn:Hth.
  - left. destruct (insert_throws q xs nothrow v Hq Hsome Hth) as (q' & g & E & Hq' & _).
    eauto.
  - right. destruct (insert_returns q xs nothrow v Hq Hsome Hth) as (q' & ? & ? & E & Hq' & _).
    eauto.
Qed.

(** What a pop-family call on a queue that is not empty can do: end with
    the exception of the first move and the queue as it was, hand out the
    oldest value, or, for [try_pop], end with the exception of the second
    move and the oldest value gone. *)
Lemma pop_cases q x xs :
  holds q (x :: xs) →
  (pop q = (if pop_noexcept then Terminates else Throws (ctor_done q)) ∧
   try_pop q = (if pop_noexcept then Terminates else Throws (ctor_done q))) ∨
  (∃ q', pop q = Returns x q' ∧ holds q' xs ∧
         (try_pop q = Returns (Some x) (ctor_done q') ∨
          try_pop q = (if is_nothrow_move_constructible then Terminates
                       else Throws (ctor_done q')))).
Proof.
  intros Hq. destruct (next_ctor_throws q) eqn:Hmv.
  - left. by apply (pop_throws q x xs).
  - right. destruct (pop_takes q x xs Hq Hmv) as (q' & ? & ? & E1 & E2 & Hq' & _).
    exists q'. split_and!; [done..|].
    rewrite E2. destruct (next_ctor_throws q'); auto.
Qed.

Lemma step_spec o h q xs h' q' :
  holds q xs →
  step o h q = Returns h' q' →
  ∃ xs' ins outs,
    holds q' xs' ∧
    pushed h' = pushed h ++ ins ∧
    popped h' = popped h ++ outs ∧
    xs ++ ins = outs ++ xs'.
Proof.
  intros Hq. destruct o as [v|v| | |]; unfold step, bind, ret.
  - unfold push.
    destruct (insert_cases q xs is_nothrow_copy_constructible v Hq)
      as [->|[(q1 & -> & _)|(q1 & -> & Hq1)]];
      [done|by destruct is_nothrow_copy_constructible|].
    intros [= <- <-]. exists (xs ++ [v]), [v], []. by rewrite app_nil_r.
  - unfold push_rvalue.
    destruct (insert_cases q xs is_nothrow_move_constructible v Hq)
      as [->|[(q1 & -> & _)|(q1 & -> & Hq1)]];
      [done|by destruct is_nothrow_move_constructible|].
    intros [= <- <-]. exists (xs ++ [v]), [v], []. by rewrite app_nil_r.
  - destruct xs as [|x xs].
    + destruct (pop_empty q Hq) as [_ ->]. done.
    + destruct (pop_cases q x xs Hq) as [[-> _]|(q1 & -> & Hq1 & _)];
        [by destruct pop_noexcept|].
      intros [= <- <-]. exists xs, [], [x]. by rewrite !app_nil_r.
  - destruct xs as [|x xs].
    + destruct (pop_empty q Hq) as [-> _].
      intros [= <- <-]. exists [], [], []. by rewrite !app_nil_r.
    + destruct (pop_cases q x xs Hq) as [[_ ->]|(q1 & _ & Hq1 & [->| ->])];
        [by destruct pop_noexcept| |by destruct is_nothrow_move_constructible].
      intros [= <- <-]. exists xs, [], [x]. rewrite !app_nil_r.
      split; [by apply holds_ctor_done|done].
  - rewrite (empty_spec q xs Hq). intros [= <- <-].
    exists xs, [], []. by rewrite !app_nil_r.
Qed.

(** A call that ends with an exception leaves a queue that holds what it
    held, or that without its oldest value when the exception is that of
    the second move of [try_pop]. *)
Lemma step_throws o h q xs q' :
  holds q xs → step o h q = Throws q' → holds q' xs ∨ holds q' (tail xs).
Proof.
  intros Hq. destruct o as [v|v| | |]; unfold step, bind, ret.
  - unfold push.
    destruct (insert_cases q xs is_nothrow_copy_constructible v Hq)
      as [->|[(q1 & -> & Hq1)|(q1 & -> & _)]]; [done| |done].
    destruct is_nothrow_copy_constructible; [done|]. intros [= <-]. by left.
  - unfold push_rvalue.
    destruct (insert_cases q xs is_nothrow_move_constructible v Hq)
      as [->|[(q1 & -> & Hq1)|(q1 & -> & _)]]; [done| |done].
    destruct is_nothrow_move_constructible; [done|]. intros [= <-]. by left.
  - destruct xs as [|x xs].
    + destruct (pop_empty q Hq) as [_ ->]. done.
    + destruct (pop_cases q x xs Hq) as [[-> _]|(q1 & -> & Hq1 & _)]; [|done].
      destruct pop_noexcept; [done|]. intros [= <-]. left.
      by apply holds_ctor_done.
  - destruct xs as [|x xs].
    + destruct (pop_empty q Hq) as [-> _]. done.
    + destruct (pop_cases q x xs Hq) as [[_ ->]|(q1 & _ & Hq1 & [->| ->])]; [| |].
      * destruct pop_noexcept; [done|]. intros [= <-]. left.
        by apply holds_ctor_done.
      * done.
      * destruct is_nothrow_move_constructible; [done|]. intros [= <-]. right.
        by apply holds_ctor_done.
  - by rewrite (empty_spec q xs Hq).
Qed.

(** A pop-family call that returns a value has taken the oldest one. *)
Lemma pop_returned q xs0 x q' :
  holds q xs0 →
  pop q = Returns x q' ∨ try_pop q = Returns (Some x) q' →
  ∃ xs old nxt,
    xs0 = x :: xs ∧
    holds q' xs ∧
    ptr_ (front_ q) = Some old ∧
    heap q !! old = Some (Node (Object x) (Some nxt)) ∧
    ptr_ (front_ q') = Some nxt ∧
    heap q' !! old = Some (Node (Object (moved_from x)) (free_list_ q)) ∧
    free_list_ q' = Some old ∧
    back_ q' = back_ q.
Proof.
  intros Hq Hpop. destruct xs0 as [|y xs].
  { destruct (pop_empty q Hq) as [E1 E2]. rewrite E1, E2 in Hpop.
    by destruct Hpop. }
  destruct (next_ctor_throws q) eqn:Hmv.
  { destruct (pop_throws q y xs Hq Hmv) as [E1 E2]. rewrite E1, E2 in Hpop.
    destruct pop_noexcept; by destruct Hpop. }
  destruct (pop_takes q y xs Hq Hmv)
    as (q1 & old & nxt & E1 & E2 & Hq1 & Hold & Hnode & Hfr1 & Hfree & Hfl & Hbk & _).
  rewrite E1, E2 in Hpop. exists xs, old, nxt.
  destruct Hpop as [Hpop|Hpop].
  - by simplify_eq.
  - destruct (next_ctor_throws q1);
      [by destruct is_nothrow_move_constructible|].
    by simplify_eq.
Qed.

Lemma reachable_holds q : reachable q → ∃ xs, holds q xs.
Proof.
  induction 1 as [blocks throws q Hmk|o h q h' q' _ [xs Hq] Hstep
                 |o h q q' _ [xs Hq] Hstep].
  - exists []. by eapply make_holds.
  - destruct (step_spec _ _ _ _ _ _ Hq Hstep) as (xs' & _ & _ & Hq' & _). eauto.
  - destruct (step_throws _ _ _ _ _ Hq Hstep); eauto.
Qed.

Lemma run_spec ops h q xs h' q' :
  holds q xs →
  pushed h = popped h ++ xs →
  run ops h q = Returns h' q' →
  ∃ xs', holds q' xs' ∧ pushed h' = popped h' ++ xs'.
Proof.
  revert h q xs. induction ops as [|o ops IH]; intros h q xs Hq Hh; simpl.
  - intros [= <- <-]. eauto.
  - unfold bind. destruct (step o h q) as [h1 q1| | | | |] eqn:Hstep; try done.
    destruct (step_spec _ _ _ _ _ _ Hq Hstep)
      as (xs1 & ins & outs & Hq1 & Hin & Hout & Hbal).
    apply (IH _ _ xs1 Hq1).
    rewrite Hin, Hout, Hh, <- !app_assoc. by f_equal.
Qed.

End driver.

(** *** The nodes, one by one *)

Section shape.

Context {T : Type} `{!Element T}.
Implicit Types (q : queue T) (h : gmap positive (node T)) (xs : list T)
  (cells fs : list (positive * T)) (lost : list positive).

Lemma rseg_insert_ne h a n p fs :
  a ∉ fs.*1 → rseg h p fs → rseg (<[a := n]> h) p fs.
Proof.
  revert p. induction fs as [|[f r] fs IH]; intros p Ha; [done|].
  simpl in *. intros (-> & nx & Hf & Hrest).
  apply not_elem_of_cons in Ha as [Hne Ha].
  split; [done|]. exists nx. rewrite lookup_insert_ne by done. auto.
Qed.

Lemma rseg_fseg h p fs : rseg h p fs → fseg h p fs.*1.
Proof.
  revert p. induction fs as [|[f r] fs IH]; intros p; [done|].
  simpl. intros (-> & nx & Hf & Hrest). split; [done|].
  exists (Node (Object r) nx). split; [done|]. by apply IH.
Qed.

Lemma rseg_head h p fs : rseg h p fs → p = head fs.*1.
Proof. destruct fs as [|[a r] fs]; [done|]. by intros (-> & _). Qed.

Lemma shape_holds q cells b fs lost :
  shape q cells b fs lost → holds q cells.*2.
Proof.
  intros (f & Hfr & Hbk & Hseg & Hb & Hfs & Hnd & _ & _ & Hfresh).
  exists cells, f, b, fs.*1. split_and!; try done; [by apply rseg_fseg|].
  clear -Hnd. nodup.
Qed.

Lemma shape_ctor_done q cells b fs lost :
  shape q cells b fs lost → shape (ctor_done q) cells b fs lost.
Proof. intros Hs. exact Hs. Qed.

Lemma make_shape blocks throws q :
  make blocks throws = Returns tt q → shape q [] 1%positive [] [].
Proof.
  destruct blocks as [|k]; [by rewrite make_exhausted|].
  rewrite make_succeeds. intros [= <-].
  exists 1%positive. simpl. split_and!; try done.
  - apply NoDup_singleton.
  - intros a [n Ha]. apply list_elem_of_singleton.
    destruct (decide (a = 1%positive)) as [->|Hne]; [done|].
    by rewrite lookup_insert_ne, lookup_empty in Ha.
  - intros a Ha. by apply elem_of_nil in Ha.
  - intros a Ha. rewrite lookup_insert_ne by lia. apply lookup_empty.
Qed.

(** [alloc_node] hands out the head of the free list, or the next block
    of [malloc] when the free list is empty, zeroed; until it is linked
    nothing leads to it. *)
Lemma alloc_node_shape q cells b fs lost :
  shape q cells b fs lost →
  free_list_ q ≠ None ∨ blocks_left q ≠ 0%nat →
  ∃ g q',
    alloc_node q = Returns (Some g) q' ∧
    shape q' cells b (tail fs) (g :: lost) ∧
    heap q' = <[g := Node Zeroed None]> (heap q) ∧
    ctor_throws q' = ctor_throws q ∧
    free_list_ q' = head (tail fs).*1 ∧
    match fs with
    | c :: _ =>
        g = c.1 ∧ blocks_left q' = blocks_left q ∧ next_block q' = next_block q
    | [] =>
        g = next_block q ∧ blocks_left q = S (blocks_left q') ∧
        next_block q' = Pos.succ (next_block q)
    end.
Proof.
  intros (f & Hfr & Hbk & Hseg & Hb & Hfs & Hnd & Hdom & Hlost & Hfresh) Hsome.
  destruct q as [h nb bl th fl fr bk].
  cbn [heap next_block blocks_left ctor_throws free_list_ front_ back_] in *.
  subst fr bk.
  destruct fs as [|[g r] fs]; simpl in Hfs.
  - subst fl. destruct Hsome as [?|Hbl]; [done|].
    destruct bl as [|k]; [done|].
    assert (Hg : h !! nb = None) by (apply Hfresh; lia).
    assert (Hgn : nb ∉ cells.*1 ++ b :: lost).
    { intros [Hin|[->|Hin]%elem_of_cons]%elem_of_app.
      - destruct (lseg_allocated _ _ _ _ _ Hseg Hin). congruence.
      - congruence.
      - apply Hlost in Hin. congruence. }
    exists nb, (Queue (<[nb := Node Zeroed None]> h) (Pos.succ nb) k th None
                  (End false (Some f)) (End false (Some b))).
    split; [reflexivity|]. split; [|done].
    exists f. cbn [heap next_block blocks_left ctor_throws free_list_ front_ back_ tail fmap
      list_fmap app]. simpl in Hnd, Hdom.
    assert (nb ≠ b ∧ (nb ∉ cells.*1) ∧ nb ∉ lost) as (Hgb & Hgc & Hgl)
      by (clear -Hgn; nodup).
    split_and!; try done.
    + by apply lseg_insert_ne.
    + by rewrite lookup_insert_ne.
    + clear -Hnd Hgn. nodup.
    + intros a Ha. rewrite lookup_insert_is_Some in Ha.
      destruct Ha as [->|[_ Ha]]; [clear; nodup|].
      apply Hdom in Ha. clear -Ha. nodup.
    + intros a [->|Ha]%elem_of_cons; [apply lookup_insert_eq|].
      rewrite lookup_insert_ne; [by apply Hlost|]. intros ->. done.
    + intros a Ha. rewrite lookup_insert_ne by lia. apply Hfresh. lia.
  - destruct Hfs as (-> & nx & Hg & Hrest). simpl in Hnd, Hdom.
    assert (g ≠ b ∧ (g ∉ cells.*1) ∧ (g ∉ fs.*1) ∧ g ∉ lost) as (Hgb & Hgc & Hgfs & Hgl)
      by (clear -Hnd; nodup).
    exists g, (Queue (<[g := Node Zeroed None]> h) nb bl th nx
                 (End false (Some f)) (End false (Some b))).
    split.
    { repeat (progress (exec; rewrite ?Hg)). done. }
    split; [|split_and!; try done; by apply rseg_head in Hrest].
    exists f. cbn [heap next_block blocks_left ctor_throws free_list_ front_ back_ tail].
    split_and!; try done.
    + by apply lseg_insert_ne.
    + by rewrite lookup_insert_ne.
    + by apply rseg_insert_ne.
    + clear -Hnd. nodup.
    + intros a Ha. rewrite lookup_insert_is_Some in Ha.
      destruct Ha as [->|[_ Ha]]; [clear; nodup|].
      apply Hdom in Ha. clear -Ha. nodup.
    + intros a [->|Ha]%elem_of_cons; [apply lookup_insert_eq|].
      rewrite lookup_insert_ne; [by apply Hlost|]. intros ->. done.
    + intros a Ha. pose proof (Hfresh a Ha) as Hn.
      assert (a ≠ g) by (intros ->; congruence).
      by rewrite lookup_insert_ne.
Qed.

(** The rest of [insert], once [alloc_node] has returned. *)
Lemma insert_after_alloc q g q1 (b : positive) (n : node T) nothrow v :
  alloc_node q = Returns (Some g) q1 →
  back_ q1 = End false (Some b) →
  heap q1 !! b = Some n →
  insert nothrow v q
  = if next_ctor_throws q1 then
      if nothrow then Terminates else Throws (ctor_done q1)
    else
      Returns tt
        (Queue (<[b := Node (Object v) (Some g)]>
                  (<[b := Node (Object v) None]> (heap q1)))
           (next_block q1) (blocks_left q1) (tail (ctor_throws q1))
           (free_list_ q1) (front_ q1) (End false (Some g))).
Proof.
  intros Halloc Hbk Hb. unfold insert. unfold bind at 1. rewrite Halloc.
  destruct q1 as [h nb bl th fl fr bk].
  cbn [heap back_] in *. subst bk.
  repeat (progress (exec; rewrite ?Hb, ?lookup_insert_eq)).
  destruct (default false (head th)); [destruct nothrow|];
    repeat (progress (exec; rewrite ?Hb, ?lookup_insert_eq)); done.
Qed.

(** Linking the node just allocated behind the one at [back_]. *)
Lemma link_shape q cells b fs lost g v :
  shape q cells b fs (g :: lost) →
  shape (Queue (<[b := Node (Object v) (Some g)]>
                  (<[b := Node (Object v) None]> (heap q)))
           (next_block q) (blocks_left q) (tail (ctor_throws q))
           (free_list_ q) (front_ q) (End false (Some g)))
    (cells ++ [(b, v)]) g fs lost.
Proof.
  intros (f & Hfr & Hbk & Hseg & Hb & Hfs & Hnd & Hdom & Hlost & Hfresh).
  assert ((b ∉ cells.*1) ∧ g ≠ b ∧ (g ∉ cells.*1) ∧ (g ∉ fs.*1) ∧ (b ∉ fs.*1) ∧ b ∉ lost)
    as (Hbc & Hgb & Hgc & Hgfs & Hbfs & Hbl) by (clear -Hnd; nodup).
  assert (Hg : heap q !! g = Some (Node Zeroed None)) by (apply Hlost; left).
  exists f. cbn [heap next_block blocks_left ctor_throws free_list_ front_ back_].
  rewrite fmap_app. simpl. rewrite <- app_assoc. simpl.
  split_and!; try done.
  - apply lseg_snoc; [|apply lookup_insert_eq].
    do 2 (apply lseg_insert_ne; [done|]). done.
  - by rewrite !lookup_insert_ne.
  - do 2 (apply rseg_insert_ne; [done|]). done.
  - clear -Hnd. nodup.
  - intros a Ha. rewrite !lookup_insert_is_Some in Ha.
    destruct Ha as [->|[_ [->|[_ Ha]]]]; [clear; nodup..|].
    apply Hdom in Ha. clear -Ha. nodup.
  - intros a Ha. assert (a ≠ b) by (intros ->; done).
    rewrite !lookup_insert_ne by done. apply Hlost. by right.
  - intros a Ha. pose proof (Hfresh a Ha) as Hn.
    assert (a ≠ b) by (intros ->; congruence).
    by rewrite !lookup_insert_ne.
Qed.

(** What [insert] does to the nodes.  It takes the head of the free list
    if there is one, a block from [malloc] otherwise; when the constructor
    of the element returns, the node that was at [back_] carries the value
    and the new node is at [back_]; when it throws, the new node is lost. *)
Lemma insert_shape q cells b fs lost v :
  shape q cells b fs lost →
  free_list_ q ≠ None ∨ blocks_left q ≠ 0%nat →
  ∃ g q',
    (∀ nothrow,
       insert nothrow v q
       = (if next_ctor_throws q then if nothrow then Terminates else Throws q'
          else Returns tt q')) ∧
    (if next_ctor_throws q then shape q' cells b (tail fs) (g :: lost)
     else shape q' (cells ++ [(b, v)]) g (tail fs) lost) ∧
    ctor_throws q' = tail (ctor_throws q) ∧
    free_list_ q' = head (tail fs).*1 ∧
    match fs with
    | c :: _ =>
        g = c.1 ∧ blocks_left q' = blocks_left q ∧ next_block q' = next_block q
    | [] =>
        g = next_block q ∧ blocks_left q = S (blocks_left q') ∧
        next_block q' = Pos.succ (next_block q)
    end.
Proof.
  intros Hs Hsome.
  destruct (alloc_node_shape q cells b fs lost Hs Hsome)
    as (g & q1 & Halloc & Hs1 & Hheap & Hth & Hfl & Hfs).
  assert (Hnext : next_ctor_throws q1 = next_ctor_throws q).
  { unfold next_ctor_throws. by rewrite Hth. }
  pose proof Hs1 as (f & Hfr1 & Hbk1 & _ & Hb1 & _).
  pose proof (λ nothrow, insert_after_alloc q g q1 b _ nothrow v Halloc Hbk1 Hb1) as E.
  rewrite Hnext in E.
  destruct (next_ctor_throws q).
  - exists g, (ctor_done q1). split_and!; try done.
    cbn [ctor_done ctor_throws]. by rewrite Hth.
  - eexists g, _. split; [exact E|]. split; [by apply link_shape|].
    cbn [ctor_throws free_list_ blocks_left next_block]. by rewrite Hth.
Qed.

(** What a pop that returns has done to the nodes: the node that was at
    [front_] heads the free list, with the object left by the move. *)
Lemma pop_shape q cells b fs lost x q' :
  shape q cells b fs lost →
  pop q = Returns x q' ∨ try_pop q = Returns (Some x) q' →
  ∃ a cells',
    cells = (a, x) :: cells' ∧
    shape q' cells' b ((a, moved_from x) :: fs) lost ∧
    blocks_left q' = blocks_left q ∧
    next_block q' = next_block q.
Proof.
  intros Hs Hpop. pose proof (shape_holds _ _ _ _ _ Hs) as Hq.
  destruct Hs as (f & Hfr & Hbk & Hseg & Hb & Hfs & Hnd & Hdom & Hlost & Hfresh).
  destruct cells as [|[a y] cells].
  { destruct (pop_empty q Hq) as [E1 E2]. rewrite E1, E2 in Hpop.
    by destruct Hpop. }
  destruct (next_ctor_throws q) eqn:Hmv.
  { destruct (pop_throws q y cells.*2 Hq Hmv) as [E1 E2]. rewrite E1, E2 in Hpop.
    destruct pop_noexcept; by destruct Hpop. }
  simpl in Hseg. destruct Hseg as (-> & p' & Ha & Hseg).
  simpl in Hnd. apply NoDup_cons in Hnd as [Hanot Hnd].
  apply not_elem_of_app in Hanot as [Hac [Hab Hafs]%not_elem_of_cons].
  apply not_elem_of_app in Hafs as [Hafs Hal].
  destruct q as [h nb bl th fl fr bk].
  unfold next_ctor_throws in Hmv.
  cbn [heap next_block blocks_left ctor_throws free_list_ front_ back_] in *.
  subst fr bk.
  set (h' := <[a := Node (Object (moved_from y)) fl]>
               (<[a := Node (Object (moved_from y)) (Some p')]> h)).
  assert (∃ th', q' = Queue h' nb bl th' (Some a) (End false (Some p'))
                        (End false (Some b)) ∧ x = y) as (th' & -> & ->).
  { revert Hpop.
    repeat (progress (exec; rewrite ?Ha, ?Hmv, ?lookup_insert_eq)).
    intros [E|E]; [exists (tail th); by simplify_eq|].
    destruct (default false (head (tail th)));
      [by destruct is_nothrow_move_constructible|].
    exists (tail (tail th)). by simplify_eq. }
  exists a, cells. cbn [blocks_left next_block]. split_and!; try done.
  exists p'. cbn [heap next_block blocks_left ctor_throws free_list_ front_ back_ fst snd].
  split_and!; try done.
  - unfold h'. do 2 (apply lseg_insert_ne; [done|]). done.
  - unfold h'. by rewrite !lookup_insert_ne.
  - split; [done|]. exists fl. split; [apply lookup_insert_eq|].
    unfold h'. do 2 (apply rseg_insert_ne; [done|]). done.
  - simpl. clear -Hnd Hac Hab Hafs Hal. nodup.
  - intros c Hc. unfold h' in Hc. rewrite !lookup_insert_is_Some in Hc.
    simpl in *. destruct Hc as [->|[_ [->|[_ Hc]]]]; [clear; nodup..|].
    apply Hdom in Hc. clear -Hc. nodup.
  - intros c Hc. assert (c ≠ a) by (intros ->; done).
    unfold h'. rewrite !lookup_insert_ne by done. by apply Hlost.
  - intros c Hc. pose proof (Hfresh c Hc) as Hn.
    assert (c ≠ a) by (intros ->; congruence).
    unfold h'. by rewrite !lookup_insert_ne.
Qed.

Lemma insert_shape_step q cells b fs lost nothrow v r :
  shape q cells b fs lost →
  insert nothrow v q = r →
  match r with
  | Returns _ q' | Throws q' => ∃ cells' b' fs' lost', shape q' cells' b' fs' lost'
  | _ => True
  end.
Proof.
  intros Hs <-. pose proof (shape_holds _ _ _ _ _ Hs) as Hq.
  assert (Hmem : (free_list_ q = None ∧ blocks_left q = 0%nat) ∨
                 (free_list_ q ≠ None ∨ blocks_left q ≠ 0%nat)).
  { destruct (free_list_ q); [right; by left|].
    destruct (blocks_left q); [by left|right; by right]. }
  destruct Hmem as [[Hfl Hbl]|Hsome].
  { by rewrite insert_exhausted. }
  destruct (insert_shape q cells b fs lost v Hs Hsome)
    as (g & q' & E & Hs' & _).
  rewrite E.
  destruct (next_ctor_throws q); [destruct nothrow|]; eauto.
Qed.

Lemma step_shape o (hi : history T) q cells b fs lost :
  shape q cells b fs lost →
  match step o hi q with
  | Returns _ q' | Throws q' => ∃ cells' b' fs' lost', shape q' cells' b' fs' lost'
  | _ => True
  end.
Proof.
  intros Hs. pose proof (shape_holds _ _ _ _ _ Hs) as Hq.
  destruct o as [v|v| | |]; unfold step, bind, ret.
  - pose proof (insert_shape_step q cells b fs lost
                  is_nothrow_copy_constructible v _ Hs eq_refl) as Hi.
    unfold push. by destruct (insert _ v q).
  - pose proof (insert_shape_step q cells b fs lost
                  is_nothrow_move_constructible v _ Hs eq_refl) as Hi.
    unfold push_rvalue. by destruct (insert _ v q).
  - destruct (pop q) as [x q1|q1| | | |] eqn:E; try done.
    + destruct (pop_shape q cells b fs lost x q1 Hs (or_introl E))
        as (a & cells' & _ & Hp & _). eauto.
    + destruct cells.*2 as [|y ys] eqn:Hxs.
      * destruct (pop_empty q Hq) as [_ E2]. by rewrite E2 in E.
      * destruct (pop_cases q y ys Hq) as [[E1 _]|(q2 & E1 & _)];
          rewrite E1 in E; [|done].
        destruct pop_noexcept; [done|]. simplify_eq.
        apply shape_ctor_done in Hs. eauto.
  - destruct (try_pop q) as [[x|] q1|q1| | | |] eqn:E; try done.
    + destruct (pop_shape q cells b fs lost x q1 Hs (or_intror E))
        as (a & cells' & _ & Hp & _). eauto.
    + destruct cells.*2 as [|y ys] eqn:Hxs.
      * destruct (pop_empty q Hq) as [E1 _]. rewrite E1 in E. simplify_eq. eauto.
      * destruct (pop_cases q y ys Hq) as [[_ E2]|(q2 & _ & _ & [E2|E2])];
          rewrite E2 in E;
          [by destruct pop_noexcept|done|by destruct is_nothrow_move_constructible].
    + destruct cells.*2 as [|y ys] eqn:Hxs.
      * destruct (pop_empty q Hq) as [E1 _]. by rewrite E1 in E.
      * destruct (pop_cases q y ys Hq) as [[_ E2]|(q2 & E1 & _ & [E2|E2])];
          rewrite E2 in E.
        -- destruct pop_noexcept; [done|]. simplify_eq.
           apply shape_ctor_done in Hs. eauto.
        -- done.
        -- destruct is_nothrow_move_constructible; [done|]. simplify_eq.
           destruct (pop_shape q cells b fs lost y q2 Hs (or_introl E1))
             as (a & cells' & _ & Hp & _).
           apply shape_ctor_done in Hp. eauto.
  - rewrite (empty_spec q _ Hq). eauto.
Qed.

Lemma reachable_shape q :
  reachable q → ∃ cells b fs lost, shape q cells b fs lost.
Proof.
  induction 1 as [blocks throws q Hmk|o hi q hi' q' _ (cells & b & fs & lost & Hs) Hstep
                 |o hi q q' _ (cells & b & fs & lost & Hs) Hstep].
  - exists [], 1%positive, [], []. by eapply make_shape.
  - pose proof (step_shape o hi q cells b fs lost Hs) as Hp.
    by rewrite Hstep in Hp.
  - pose proof (step_shape o hi q cells b fs lost Hs) as Hp.
    by rewrite Hstep in Hp.
Qed.

(** The queue does what the FIFO buffer does, as long as there is a node
    for every value held and no constructor throws: the nodes are those of
    the free list and the blocks [malloc] still has. *)
Lemma list_run_refines (room : nat) ops (hi hi' : history T) xs xs' q cells b fs lost :
  shape q cells b fs lost →
  cells.*2 = xs →
  ctor_throws q = [] →
  (room ≤ length cells + length fs + blocks_left q)%nat →
  fifo_run room ops hi xs = Some (hi', xs') →
  ∃ q', run ops hi q = Returns hi' q' ∧ holds q' xs' ∧ ctor_throws q' = [].
Proof.
  revert hi xs q cells b fs.
  induction ops as [|o ops IH]; intros hi xs q cells b fs Hs Hxs Hth Hroom; simpl.
  { intros [= <- <-]. exists q. subst xs. split_and!; [done| |done].
    by eapply shape_holds. }
  pose proof (shape_holds _ _ _ _ _ Hs) as Hq. rewrite Hxs in Hq.
  assert (Hnext : next_ctor_throws q = false).
  { unfold next_ctor_throws. by rewrite Hth. }
  assert (Hpush : ∀ nothrow v,
            (length xs < room)%nat →
            fifo_run room ops (History (pushed hi ++ [v]) (popped hi)) (xs ++ [v])
            = Some (hi', xs') →
            ∃ q1 q', insert nothrow v q = Returns tt q1 ∧
                     run ops (History (pushed hi ++ [v]) (popped hi)) q1
                     = Returns hi' q' ∧
                     holds q' xs' ∧ ctor_throws q' = []).
  { intros nothrow v Hlt Hrun.
    assert (Hlen : length cells = length xs) by (by rewrite <- Hxs, !length_fmap).
    assert (Hsome : free_list_ q ≠ None ∨ blocks_left q ≠ 0%nat).
    { destruct fs as [|c fs'].
      - right. simpl in Hroom. lia.
      - left. destruct Hs as (f & _ & _ & _ & _ & Hr & _).
        apply rseg_head in Hr. by rewrite Hr. }
    destruct (insert_shape q cells b fs lost v Hs Hsome)
      as (g & q1 & E & Hs1 & Hth1 & _ & Hcount).
    specialize (E nothrow). rewrite Hnext in E, Hs1. exists q1.
    destruct (IH (History (pushed hi ++ [v]) (popped hi)) (xs ++ [v]) q1
                (cells ++ [(b, v)]) g (tail fs)) as (q' & ? & ? & ?); try done.
    - rewrite fmap_app. simpl. by rewrite Hxs.
    - by rewrite Hth1, Hth.
    - rewrite length_app. simpl.
      destruct fs as [|c fs']; simpl in *; destruct Hcount as (_ & Hbl & _); lia.
    - by exists q'. }
  assert (Hpop : ∀ x xs1,
            xs = x :: xs1 →
            fifo_run room ops (History (pushed hi) (popped hi ++ [x])) xs1
            = Some (hi', xs') →
            ∃ q1 q2 q' q'',
              pop q = Returns x q1 ∧
              run ops (History (pushed hi) (popped hi ++ [x])) q1 = Returns hi' q' ∧
              holds q' xs' ∧ ctor_throws q' = [] ∧
              try_pop q = Returns (Some x) q2 ∧
              run ops (History (pushed hi) (popped hi ++ [x])) q2 = Returns hi' q'' ∧
              holds q'' xs' ∧ ctor_throws q'' = []).
  { intros x xs1 -> Hrun.
    destruct (pop_takes q x xs1 Hq Hnext)
      as (q1 & old & nxt & E1 & E2 & _ & _ & _ & _ & _ & _ & _ & Hth1).
    rewrite Hth in Hth1. simpl in Hth1.
    destruct (pop_shape q cells b fs lost x q1 Hs (or_introl E1))
      as (a & cells' & -> & Hs1 & Hbl & _).
    simpl in Hxs. simplify_eq.
    assert (Hnext1 : next_ctor_throws q1 = false).
    { unfold next_ctor_throws. by rewrite Hth1. }
    rewrite Hnext1 in E2.
    destruct (IH (History (pushed hi) (popped hi ++ [x])) cells'.*2 q1 cells' b
                ((a, moved_from x) :: fs)) as (q' & ? & ? & ?); try done.
    { simpl in *. lia. }
    destruct (IH (History (pushed hi) (popped hi ++ [x])) cells'.*2 (ctor_done q1)
                cells' b ((a, moved_from x) :: fs)) as (q'' & ? & ? & ?); try done.
    { cbn [ctor_done ctor_throws]. by rewrite Hth1. }
    { cbn [ctor_done blocks_left]. simpl in *. lia. }
    by exists q1, (ctor_done q1), q', q''. }
  destruct o as [v|v| | |]; unfold step, bind, ret.
  - destruct (decide _) as [Hlt|]; [|done]. intros Hrun.
    destruct (Hpush is_nothrow_copy_constructible v Hlt Hrun) as (q1 & q' & E & ? & ? & ?).
    exists q'. unfold push. by rewrite E.
  - destruct (decide _) as [Hlt|]; [|done]. intros Hrun.
    destruct (Hpush is_nothrow_move_constructible v Hlt Hrun) as (q1 & q' & E & ? & ? & ?).
    exists q'. unfold push_rvalue. by rewrite E.
  - destruct xs as [|x xs1]; [done|]. intros Hrun.
    destruct (Hpop x xs1 eq_refl Hrun) as (q1 & _ & q' & _ & E & ? & ? & ? & _).
    exists q'. by rewrite E.
  - destruct xs as [|x xs1].
    + intros Hrun. destruct (pop_empty q Hq) as [E _]. rewrite E.
      by apply (IH _ [] q cells b fs).
    + intros Hrun.
      destruct (Hpop x xs1 eq_refl Hrun) as (_ & q2 & _ & q'' & _ & _ & _ & _ & E & ? & ? & ?).
      exists q''. by rewrite E.
  - intros Hrun. rewrite (empty_spec q xs Hq).
    by apply (IH _ xs q cells b fs).
Qed.

(** The buffer hands out what it was given, in order. *)
Lemma list_fifo_balance (room : nat) (ops : list (op T)) (hi hi' : history T) xs xs' :
  pushed hi = popped hi ++ xs →
  fifo_run room ops hi xs = Some (hi', xs') →
  pushed hi' = popped hi' ++ xs'.
Proof.
  revert hi xs. induction ops as [|o ops IH]; intros hi xs Hh; simpl.
  { by intros [= <- <-]. }
  destruct o as [v|v| | |].
  - destruct (decide _); [|done]. apply IH. simpl. by rewrite Hh, app_assoc.
  - destruct (decide _); [|done]. apply IH. simpl. by rewrite Hh, app_assoc.
  - destruct xs as [|x xs1]; [done|]. apply IH. simpl.
    by rewrite Hh, <- app_assoc.
  - destruct xs as [|x xs1]; [by apply IH|]. apply IH. simpl.
    by rewrite Hh, <- app_assoc.
  - by apply IH.
Qed.

End shape.


End LinkedBlockingQueueFacts.

(** ** The specification, claim by claim *)

Import SizeT ArrayBlockingQueueFacts LinkedBlockingQueueFacts.

Section bounded.

Context {T : Type}.
Implicit Types (q : ArrayBlockingQueue.queue T).

Lemma reachable_capacity q : ArrayBlockingQueue.reachable q → ArrayBlockingQueue.valid_capacity (ArrayBlockingQueue.capacity_ q).
Proof.
  intros (xs & H & Hq)%reachable_represents. apply Hq.
Qed.

Lemma not_power_of_two_six : ¬ ArrayBlockingQueue.power_of_two 6.
Proof.
  intros (j & Hj & E).
  destruct (decide (j < 3)) as [Hlt|Hge].
  - assert (j = 0 ∨ j = 1 ∨ j = 2) as [-> | [-> | ->]] by lia; discriminate.
  - assert (2 ^ 3 ≤ 2 ^ j) by (apply Z.pow_le_mono_r; lia). lia.
Qed.

(** C1 (defect in the code): the constructor checks that the capacity is
    above 1 and even, so it accepts 6, which is not a power of two; on that
    queue tickets 0 and 2 share slot 0 and turn 0, and the third push
    busy-waits for ever with four slots never used. *)
Theorem capacity_six_is_accepted (a b c : T) :
  ¬ ArrayBlockingQueue.power_of_two 6 ∧
  ∃ q q1 q2 q3,
    ArrayBlockingQueue.make true 6 = ArrayBlockingQueue.Built q ∧
    ArrayBlockingQueue.get_idx q 2 = ArrayBlockingQueue.get_idx q 0 ∧
    ArrayBlockingQueue.get_write_turn q 2 = ArrayBlockingQueue.get_write_turn q 0 ∧
    ArrayBlockingQueue.push a q = ArrayBlockingQueue.Returns tt q1 ∧
    ArrayBlockingQueue.push b q1 = ArrayBlockingQueue.Returns tt q2 ∧
    ArrayBlockingQueue.push c q2 = ArrayBlockingQueue.Spins q3.
Proof.
  split; [exact not_power_of_two_six|].
  do 4 eexists. split; [reflexivity|]. repeat split; reflexivity.
Qed.

(** The part of the capacity check that the constructor does make. *)
Lemma small_or_odd_capacity_rejected (ok : bool) (c : Z) :
  c ≤ 1 ∨ c mod 2 ≠ 0 → ArrayBlockingQueue.make (T:=T) ok c = ArrayBlockingQueue.AssertFails.
Proof.
  intros Hc. unfold ArrayBlockingQueue.make.
  destruct (1 <? c) eqn:E1; [|done]. simpl.
  destruct (c mod 2 =? 0) eqn:E2; [|done]. lia.
Qed.

Lemma slot_parity q (i : nat) (s : ArrayBlockingQueue.slot_t T) :
  ArrayBlockingQueue.reachable q → ArrayBlockingQueue.array_ q !! i = Some s →
  (∃ x, ArrayBlockingQueue.val_ s = [x] ∧ Z.odd (ArrayBlockingQueue.turn_ s) = true) ∨
  (ArrayBlockingQueue.val_ s = [] ∧ Z.odd (ArrayBlockingQueue.turn_ s) = false).
Proof.
  intros (xs & H & Hq)%reachable_represents. by apply (holds_slot q H xs).
Qed.

(** C8: for a ticket [t] and a queue of valid capacity [c], the slot is
    [t & (c-1)], that is [t mod c]; the write turn is [2*(t/c)], even, and
    the read turn [2*(t/c)+1], odd; [has_val] is the parity of the turn;
    and between calls a slot holds one value when its turn is odd and none
    when it is even, so that a value is only ever constructed into an empty
    slot and destroyed from a slot that holds exactly one. *)
Theorem tickets_turns_and_slots q (t : Z) :
  ArrayBlockingQueue.reachable q →
  in_range t →
  ArrayBlockingQueue.get_idx q t = Z.land t (ArrayBlockingQueue.capacity_ q - 1) ∧
  ArrayBlockingQueue.get_idx q t = t mod ArrayBlockingQueue.capacity_ q ∧
  ArrayBlockingQueue.get_write_turn q t = 2 * (t / ArrayBlockingQueue.capacity_ q) ∧
  Z.even (ArrayBlockingQueue.get_write_turn q t) = true ∧
  ArrayBlockingQueue.get_read_turn q t = 2 * (t / ArrayBlockingQueue.capacity_ q) + 1 ∧
  Z.odd (ArrayBlockingQueue.get_read_turn q t) = true ∧
  ∀ (i : nat) (s : ArrayBlockingQueue.slot_t T),
    ArrayBlockingQueue.array_ q !! i = Some s →
    ArrayBlockingQueue.has_val s = Z.odd (ArrayBlockingQueue.turn_ s) ∧
    (ArrayBlockingQueue.val_ s ≠ [] ↔ Z.odd (ArrayBlockingQueue.turn_ s) = true) ∧
    (length (ArrayBlockingQueue.val_ s) ≤ 1)%nat ∧
    (∀ v, ArrayBlockingQueue.turn_ s = ArrayBlockingQueue.get_write_turn q t →
          ArrayBlockingQueue.val_ (ArrayBlockingQueue.construct s v) = [v]) ∧
    (ArrayBlockingQueue.turn_ s = ArrayBlockingQueue.get_read_turn q t →
     ∃ x, ArrayBlockingQueue.val_ s = [x] ∧ ArrayBlockingQueue.val_ (ArrayBlockingQueue.destroy s) = []).
Proof.
  intros Hq Ht. pose proof (reachable_capacity q Hq) as Hc.
  pose proof (quotient_small _ Hc t Ht) as Hsmall.
  assert (Hw : ArrayBlockingQueue.get_write_turn q t = 2 * (t / ArrayBlockingQueue.capacity_ q)).
  { unfold ArrayBlockingQueue.get_write_turn. rewrite Z.mul_comm. apply wrap_small. lia. }
  assert (Hr : ArrayBlockingQueue.get_read_turn q t = 2 * (t / ArrayBlockingQueue.capacity_ q) + 1).
  { unfold ArrayBlockingQueue.get_read_turn. fold (ArrayBlockingQueue.get_write_turn q t). rewrite Hw.
    by apply wrap_small. }
  assert (Hi : ArrayBlockingQueue.get_idx q t = Z.land t (ArrayBlockingQueue.capacity_ q - 1)).
  { unfold ArrayBlockingQueue.get_idx. by rewrite (capacity_mask _ Hc). }
  assert (Hwe : Z.even (ArrayBlockingQueue.get_write_turn q t) = true).
  { rewrite Hw, Z.even_mul. done. }
  assert (Hro : Z.odd (ArrayBlockingQueue.get_read_turn q t) = true).
  { rewrite Hr, Z.add_comm, Z.odd_add_mul_2. done. }
  split_and!; try done.
  - rewrite Hi, <- (land_mask _ Hc). f_equal. symmetry. by apply wrap_small.
  - intros i s Hs.
    split; [apply has_val_odd|].
    destruct (slot_parity q i s Hq Hs) as [(x & Hv & Ho)|[Hv Ho]].
    + rewrite Ho. split_and!.
      * by rewrite Hv.
      * rewrite Hv. simpl. lia.
      * intros v E. rewrite E, <- Z.negb_even, Hwe in Ho. done.
      * intros _. exists x. unfold ArrayBlockingQueue.destroy. simpl. by rewrite Hv.
    + rewrite Ho. split_and!.
      * by rewrite Hv.
      * rewrite Hv. simpl. lia.
      * intros v _. unfold ArrayBlockingQueue.construct. simpl. by rewrite Hv.
      * intros E. rewrite E, Hro in Ho. done.
Qed.


Lemma pop_capacity q val x q' :
  ArrayBlockingQueue.pop val q = ArrayBlockingQueue.Returns x q' → ArrayBlockingQueue.capacity_ q' = ArrayBlockingQueue.capacity_ q.
Proof.
  unfold ArrayBlockingQueue.pop, ArrayBlockingQueue.take. destruct (_ !! _) as [s|]; [|done].
  destruct (negb _); [done|]. destruct (ArrayBlockingQueue.val_ s); [done|].
  by intros [= _ <-].
Qed.

(** C4: on a queue of valid capacity [c], fresh from its constructor, [c]
    push-family calls (each one [push] or [try_push]) all succeed; then
    [try_push] returns false and leaves the queue as it is; then a pop,
    blocking or not, hands out the first value, after which [try_push]
    returns true. *)
Theorem full_queue_refuses_until_a_pop
  (c : Z) (q0 : ArrayBlockingQueue.queue T) (ws : list (bool * T)) (v w val : T) (fuel : nat) :
  ArrayBlockingQueue.valid_capacity c →
  ArrayBlockingQueue.make true c = ArrayBlockingQueue.Built q0 →
  Z.of_nat (length ws) = c →
  ∃ q1,
    ArrayBlockingQueue.run (S fuel) (ArrayBlockingQueue.push_call <$> ws) val (ArrayBlockingQueue.History [] []) q0
    = ArrayBlockingQueue.Returns (val, ArrayBlockingQueue.History ws.*2 []) q1 ∧
    ArrayBlockingQueue.try_push (S fuel) v q1 = ArrayBlockingQueue.Returns false q1 ∧
    ∃ x q2 q3,
      head ws.*2 = Some x ∧
      ArrayBlockingQueue.pop val q1 = ArrayBlockingQueue.Returns x q2 ∧
      ArrayBlockingQueue.try_pop (S fuel) val q1 = ArrayBlockingQueue.Returns (true, x) q2 ∧
      ArrayBlockingQueue.try_push (S fuel) w q2 = ArrayBlockingQueue.Returns true q3.
Proof.
  intros Hc Hmk Hlen. pose proof (capacity_range _ Hc) as [H2 HM].
  pose proof (fresh_holds c q0 Hc Hmk) as Hq0.
  assert (Hcap0 : ArrayBlockingQueue.capacity_ q0 = c).
  { rewrite (make_valid c Hc) in Hmk. by simplify_eq. }
  destruct (run_push_calls fuel ws q0 0 [] val (ArrayBlockingQueue.History [] []) Hq0)
    as (q1 & Hq1 & Hcap1 & Hrun); [simpl; lia|simpl; lia|].
  simpl in Hq1, Hrun. exists q1. split; [done|].
  assert (Hfull : Z.of_nat (length ws.*2) = ArrayBlockingQueue.capacity_ q1).
  { rewrite length_fmap. lia. }
  destruct (push_full q1 0 ws.*2 v fuel Hq1 Hfull) as [_ Etry].
  split; [done|].
  destruct ws.*2 as [|x xs] eqn:Hws; [simpl in Hfull; lia|].
  destruct (pop_oldest q1 0 x xs val fuel Hq1) as (q2 & Epop & Etpop & Hq2).
  pose proof (pop_capacity _ _ _ _ Epop) as Hcap2.
  simpl in Hfull.
  destruct (push_accepts q2 (0 + 1) xs w fuel Hq2) as (q3 & _ & Epush & _);
    [lia|lia|].
  exists x, q2, q3. done.
Qed.

End bounded.

Section unbounded.

Context {T : Type} `{!LinkedBlockingQueue.Element T}.
Implicit Types (q : LinkedBlockingQueue.queue T) (xs : list T).

(** The two ends of a queue that holds [xs]. *)
Lemma holds_ends q xs :
  LinkedBlockingQueue.holds q xs →
  ∃ f b nf,
    LinkedBlockingQueue.front_ q = LinkedBlockingQueue.End false (Some f) ∧
    LinkedBlockingQueue.back_ q = LinkedBlockingQueue.End false (Some b) ∧
    LinkedBlockingQueue.heap q !! f = Some nf ∧
    LinkedBlockingQueue.heap q !! b = Some (LinkedBlockingQueue.Node LinkedBlockingQueue.Zeroed None) ∧
    (xs = [] ↔ LinkedBlockingQueue.next_ nf = None) ∧
    (LinkedBlockingQueue.next_ nf = None ↔ f = b) ∧
    (∀ x, head xs = Some x ↔ LinkedBlockingQueue.val_ nf = LinkedBlockingQueue.Object x).
Proof.
  intros (cells & f & b & fs & -> & Hfr & Hbk & Hseg & Hb & Hfs & Hnd & _).
  destruct cells as [|[a x] cells]; simpl in *.
  - subst f. by exists b, b, (LinkedBlockingQueue.Node LinkedBlockingQueue.Zeroed None).
  - destruct Hseg as (-> & p' & Ha & _).
    exists a, b, (LinkedBlockingQueue.Node (LinkedBlockingQueue.Object x) (Some p')). split_and!; try done.
    + simpl. split; [done|]. intros ->.
      apply NoDup_cons in Hnd as [Hnot _]. exfalso. apply Hnot.
      apply elem_of_app. right. left.
    + intros y. simpl. split; by intros [= ->].
Qed.



(** C7: a pop, blocking or not, that returns [x] took it from the node
    [front_] pointed to; afterwards [front_] points to what was that
    node's [next_], the free list starts at the node, whose [next_] is what
    the free list started at before, and the node still holds the object
    that was moved from, on which no destructor has run. *)
Theorem pop_recycles_the_node q q' (x : T) :
  LinkedBlockingQueue.reachable q →
  LinkedBlockingQueue.pop q = LinkedBlockingQueue.Returns x q' ∨ LinkedBlockingQueue.try_pop q = LinkedBlockingQueue.Returns (Some x) q' →
  ∃ old nxt,
    LinkedBlockingQueue.ptr_ (LinkedBlockingQueue.front_ q) = Some old ∧
    LinkedBlockingQueue.heap q !! old = Some (LinkedBlockingQueue.Node (LinkedBlockingQueue.Object x) (Some nxt)) ∧
    LinkedBlockingQueue.ptr_ (LinkedBlockingQueue.front_ q') = Some nxt ∧
    LinkedBlockingQueue.free_list_ q' = Some old ∧
    LinkedBlockingQueue.heap q' !! old
    = Some (LinkedBlockingQueue.Node (LinkedBlockingQueue.Object (LinkedBlockingQueue.moved_from x)) (LinkedBlockingQueue.free_list_ q)) ∧
    LinkedBlockingQueue.back_ q' = LinkedBlockingQueue.back_ q.
Proof.
  intros [xs Hq]%reachable_holds Hpop.
  destruct (pop_returned q xs x q' Hq Hpop)
    as (xs1 & old & nxt & _ & _ & Hold & Hnode & Hfr1 & Hfree & Hfl & Hbk).
  exists old, nxt. done.
Qed.

(** C9 (defect in the code): on a reachable queue whose front node holds
    [x], when the move of [x] out of the node throws, [pop] and [try_pop]
    end with the exception and the queue as it was, lock released, only
    where the private [pop] is not [noexcept] for the element type: for a
    type that is nothrow copy constructible and has a move constructor
    that throws, the program is terminated.  And when that move returns
    and the second move of [try_pop], into the [std::optional], throws,
    [try_pop] ends with the exception after the node was detached and put
    on the free list: the queue holds one value less and [x] is gone. *)
Theorem throwing_move_outcomes q (old nxt : positive) (x : T) :
  LinkedBlockingQueue.reachable q →
  LinkedBlockingQueue.ptr_ (LinkedBlockingQueue.front_ q) = Some old →
  LinkedBlockingQueue.heap q !! old
  = Some (LinkedBlockingQueue.Node (LinkedBlockingQueue.Object x) (Some nxt)) →
  (LinkedBlockingQueue.next_ctor_throws q = true →
   LinkedBlockingQueue.pop q
   = (if LinkedBlockingQueue.pop_noexcept then LinkedBlockingQueue.Terminates
      else LinkedBlockingQueue.Throws (LinkedBlockingQueue.ctor_done q)) ∧
   LinkedBlockingQueue.try_pop q
   = (if LinkedBlockingQueue.pop_noexcept then LinkedBlockingQueue.Terminates
      else LinkedBlockingQueue.Throws (LinkedBlockingQueue.ctor_done q)) ∧
   LinkedBlockingQueue.heap (LinkedBlockingQueue.ctor_done q) = LinkedBlockingQueue.heap q ∧
   LinkedBlockingQueue.front_ (LinkedBlockingQueue.ctor_done q) = LinkedBlockingQueue.front_ q ∧
   LinkedBlockingQueue.back_ (LinkedBlockingQueue.ctor_done q) = LinkedBlockingQueue.back_ q ∧
   LinkedBlockingQueue.free_list_ (LinkedBlockingQueue.ctor_done q)
   = LinkedBlockingQueue.free_list_ q) ∧
  (LinkedBlockingQueue.next_ctor_throws q = false →
   LinkedBlockingQueue.next_ctor_throws (LinkedBlockingQueue.ctor_done q) = true →
   ∃ q' xs,
     LinkedBlockingQueue.try_pop q
     = (if LinkedBlockingQueue.is_nothrow_move_constructible
        then LinkedBlockingQueue.Terminates
        else LinkedBlockingQueue.Throws q') ∧
     LinkedBlockingQueue.holds q (x :: xs) ∧
     LinkedBlockingQueue.holds q' xs ∧
     LinkedBlockingQueue.ptr_ (LinkedBlockingQueue.front_ q') = Some nxt ∧
     LinkedBlockingQueue.free_list_ q' = Some old ∧
     LinkedBlockingQueue.heap q' !! old
     = Some (LinkedBlockingQueue.Node
               (LinkedBlockingQueue.Object (LinkedBlockingQueue.moved_from x))
               (LinkedBlockingQueue.free_list_ q))).
Proof.
  intros [xs Hq]%reachable_holds Hfront Hnode.
  destruct (holds_ends q xs Hq) as (f & b & nf & Hfr & _ & Hf & _ & Hxs & _ & Hhd).
  rewrite Hfr in Hfront. simplify_eq/=.
  destruct xs as [|y xs].
  { assert (LinkedBlockingQueue.next_ (LinkedBlockingQueue.Node (LinkedBlockingQueue.Object x) (Some nxt)) = None) by by apply Hxs.
    done. }
  assert (x = y) as <-.
  { assert (Hy : head (y :: xs) = Some x) by by apply Hhd. by simplify_eq/=. }
  split.
  - intros Hmv. destruct (pop_throws q x xs Hq Hmv) as [E1 E2]. done.
  - intros Hmv Hmv2.
    destruct (pop_takes q x xs Hq Hmv)
      as (q1 & old' & nxt' & E1 & E2 & Hq1 & Hold & Hnode' & Hfr1 & Hfree & Hfl & Hbk & Hth).
    rewrite Hfr in Hold. simplify_eq/=.
    assert (Hnext : LinkedBlockingQueue.next_ctor_throws q1 = true).
    { revert Hmv2. unfold LinkedBlockingQueue.next_ctor_throws.
      cbn [LinkedBlockingQueue.ctor_done LinkedBlockingQueue.ctor_throws].
      by rewrite Hth. }
    rewrite Hnext in E2.
    exists (LinkedBlockingQueue.ctor_done q1), xs. by split_and!.
Qed.

End unbounded.

Section both.

Context {T : Type} `{!LinkedBlockingQueue.Element T}.

(** C2 (defect in the code): when [malloc] returns null the bounded
    queue's constructor throws [std::bad_alloc], but the unbounded queue
    passes the null pointer to [memset], in its constructor and in a push
    that finds the free list empty alike. *)
Theorem allocation_failure_outcomes (v : T) (throws : list bool) :
  ArrayBlockingQueue.make (T:=T) false 4 = ArrayBlockingQueue.BadAlloc ∧
  LinkedBlockingQueue.make (T:=T) 0 throws = LinkedBlockingQueue.Undefined ∧
  ∃ q, LinkedBlockingQueue.make 1 throws = LinkedBlockingQueue.Returns tt q ∧
       LinkedBlockingQueue.free_list_ q = None ∧
       LinkedBlockingQueue.alloc_from_allocator q = LinkedBlockingQueue.Returns None q ∧
       LinkedBlockingQueue.alloc_node q = LinkedBlockingQueue.Undefined ∧
       LinkedBlockingQueue.push v q = LinkedBlockingQueue.Undefined.
Proof.
  split; [reflexivity|]. split; [reflexivity|].
  eexists. split; [reflexivity|]. repeat split; reflexivity.
Qed.

(** C6: [try_pop] on a reachable queue that holds nothing returns at
    once, with no value (the bounded queue's returns false and leaves
    [val] alone), and the queue is as it was. *)
Theorem try_pop_on_empty
  (q : ArrayBlockingQueue.queue T) (l : LinkedBlockingQueue.queue T) (fuel : nat) (val : T) :
  ArrayBlockingQueue.reachable q →
  ArrayBlockingQueue.head_ q = ArrayBlockingQueue.tail_ q →
  LinkedBlockingQueue.reachable l →
  LinkedBlockingQueue.empty l = LinkedBlockingQueue.Returns true l →
  ArrayBlockingQueue.try_pop (S fuel) val q = ArrayBlockingQueue.Returns (false, val) q ∧
  LinkedBlockingQueue.try_pop l = LinkedBlockingQueue.Returns None l.
Proof.
  intros (xs & H0 & Hq)%reachable_represents Hdr [ys Hl]%reachable_holds Hem.
  rewrite (holds_drained q H0 xs Hq Hdr) in Hq.
  rewrite (empty_spec l ys Hl) in Hem.
  destruct ys; [|by simplify_eq].
  split.
  - by apply (pop_on_empty q H0).
  - by apply pop_empty.
Qed.

End both.

Lemma valid_capacity_four : ArrayBlockingQueue.valid_capacity 4.
Proof. exists 2. split; [unfold bits; lia|reflexivity]. Qed.


(** ** The theorems at work on small queues *)

Lemma reachable_four : ArrayBlockingQueue.reachable ArrayBlockingQueue.four.
Proof.
  by apply (ArrayBlockingQueue.reachable_make 4 _ valid_capacity_four).
Qed.

Lemma full_queue_refuses_until_a_pop_witness :
  ArrayBlockingQueue.valid_capacity 4 ∧
  ArrayBlockingQueue.make true 4 = ArrayBlockingQueue.Built ArrayBlockingQueue.four ∧
  Z.of_nat (length [(false, 1%nat); (true, 2%nat); (false, 3%nat); (true, 4%nat)]) = 4 ∧
  ∃ q1,
    ArrayBlockingQueue.run 1
      (ArrayBlockingQueue.push_call
         <$> [(false, 1%nat); (true, 2%nat); (false, 3%nat); (true, 4%nat)])
      0%nat (ArrayBlockingQueue.History [] []) ArrayBlockingQueue.four
    = ArrayBlockingQueue.Returns
        (0%nat, ArrayBlockingQueue.History [1; 2; 3; 4]%nat []) q1 ∧
    ArrayBlockingQueue.try_push 1 5%nat q1 = ArrayBlockingQueue.Returns false q1 ∧
    ∃ x q2 q3,
      head [1; 2; 3; 4]%nat = Some x ∧
      ArrayBlockingQueue.pop 0%nat q1 = ArrayBlockingQueue.Returns x q2 ∧
      ArrayBlockingQueue.try_pop 1 0%nat q1 = ArrayBlockingQueue.Returns (true, x) q2 ∧
      ArrayBlockingQueue.try_push 1 6%nat q2 = ArrayBlockingQueue.Returns true q3.
Proof.
  split; [exact valid_capacity_four|]. split; [reflexivity|]. split; [reflexivity|].
  exact (full_queue_refuses_until_a_pop 4 ArrayBlockingQueue.four
           [(false, 1%nat); (true, 2%nat); (false, 3%nat); (true, 4%nat)]
           5%nat 6%nat 0%nat 0 valid_capacity_four eq_refl eq_refl).
Defined.

Lemma tickets_turns_and_slots_witness :
  ArrayBlockingQueue.reachable ArrayBlockingQueue.four ∧
  in_range 5 ∧
  ArrayBlockingQueue.get_idx ArrayBlockingQueue.four 5 = 5 mod 4 ∧
  ArrayBlockingQueue.get_write_turn ArrayBlockingQueue.four 5 = 2 * (5 / 4) ∧
  ArrayBlockingQueue.get_read_turn ArrayBlockingQueue.four 5 = 2 * (5 / 4) + 1.
Proof.
  assert (Ht : in_range 5) by (unfold in_range, modulus, bits; lia).
  split; [exact reachable_four|]. split; [exact Ht|].
  destruct (tickets_turns_and_slots ArrayBlockingQueue.four 5 reachable_four Ht)
    as (_ & Hi & Hw & _ & Hrd & _).
  split; [exact Hi|]. split; [exact Hw|exact Hrd].
Defined.

Module LinkedExamples.

Import LinkedBlockingQueue.

Lemma reachable_fresh `{!Element nat} (throws : list bool) :
  reachable (fresh_with throws).
Proof. by apply (reachable_make 2 throws). Qed.

Lemma reachable_seven `{!Element nat} (throws : list bool) :
  reachable (seven_with throws).
Proof.
  apply (reachable_step (Push 7%nat) (History [] []) (fresh_with (false :: throws))
           (History [7%nat] []) (seven_with throws) (reachable_fresh _)).
  reflexivity.
Qed.

Lemma try_pop_on_empty_witness :
  ArrayBlockingQueue.reachable ArrayBlockingQueue.four ∧
  ArrayBlockingQueue.head_ ArrayBlockingQueue.four
  = ArrayBlockingQueue.tail_ ArrayBlockingQueue.four ∧
  @reachable nat nat_element fresh ∧
  empty fresh = Returns true fresh ∧
  ArrayBlockingQueue.try_pop 1 0%nat ArrayBlockingQueue.four
  = ArrayBlockingQueue.Returns (false, 0%nat) ArrayBlockingQueue.four ∧
  @try_pop nat nat_element fresh = Returns None fresh.
Proof.
  split; [exact reachable_four|]. split; [reflexivity|].
  split; [apply reachable_fresh|]. split; [reflexivity|].
  exact (@try_pop_on_empty nat nat_element
           ArrayBlockingQueue.four fresh 0 0%nat
           reachable_four eq_refl (reachable_fresh []) eq_refl).
Defined.



Lemma pop_recycles_the_node_witness :
  @reachable nat nat_element with_seven ∧
  (@pop nat nat_element with_seven = Returns 7%nat seven_popped ∨
   @try_pop nat nat_element with_seven = Returns (Some 7%nat) seven_popped) ∧
  ∃ old, ptr_ (front_ with_seven) = Some old ∧ free_list_ seven_popped = Some old.
Proof.
  split; [apply reachable_seven|].
  split; [left; reflexivity|].
  destruct (@pop_recycles_the_node nat nat_element with_seven seven_popped 7%nat
              (reachable_seven []) (or_introl eq_refl))
    as (old & nxt & Hold & _ & _ & Hfl & _).
  exists old. split; [exact Hold|exact Hfl].
Defined.

(** With an element type that is nothrow copy constructible and whose
    move constructor throws: the first move throwing ends the program;
    the second move of [try_pop] throwing leaves the queue without the 7,
    which nobody got. *)
Lemma throwing_move_outcomes_witness :
  @reachable nat nothrow_copy_element (seven_with [true]) ∧
  ptr_ (front_ (seven_with [true])) = Some 1%positive ∧
  heap (seven_with [true]) !! 1%positive
  = Some (Node (Object 7%nat) (Some 2%positive)) ∧
  @next_ctor_throws nat (seven_with [true]) = true ∧
  @pop nat nothrow_copy_element (seven_with [true]) = Terminates ∧
  @try_pop nat nothrow_copy_element (seven_with [true]) = Terminates ∧
  @reachable nat nothrow_copy_element (seven_with [false; true]) ∧
  @next_ctor_throws nat (seven_with [false; true]) = false ∧
  @next_ctor_throws nat (ctor_done (seven_with [false; true])) = true ∧
  ∃ q' xs,
    @try_pop nat nothrow_copy_element (seven_with [false; true]) = Throws q' ∧
    holds (seven_with [false; true]) (7%nat :: xs) ∧
    holds q' xs ∧
    free_list_ q' = Some 1%positive.
Proof.
  split; [apply reachable_seven|].
  split; [reflexivity|]. split; [reflexivity|]. split; [reflexivity|].
  destruct (@throwing_move_outcomes nat nothrow_copy_element
              (seven_with [true]) 1%positive 2%positive 7%nat
              (reachable_seven [true]) eq_refl eq_refl) as [H1 _].
  destruct (H1 eq_refl) as (Hpop & Htry & _).
  split; [exact Hpop|]. split; [exact Htry|].
  split; [apply reachable_seven|].
  split; [reflexivity|]. split; [reflexivity|].
  destruct (@throwing_move_outcomes nat nothrow_copy_element
              (seven_with [false; true]) 1%positive 2%positive 7%nat
              (reachable_seven [false; true]) eq_refl eq_refl) as [_ H2].
  destruct (H2 eq_refl eq_refl) as (q' & xs & Htry2 & Hq & Hq' & _ & Hfl & _).
  exists q', xs. split; [exact Htry2|]. split; [exact Hq|].
  split; [exact Hq'|exact Hfl].
Defined.

End LinkedExamples.

(** ** More about [array_blocking_queue<T>] *)

Module ArrayBlockingQueueMore.

Import ArrayBlockingQueue.

(** [take] is the list function here, not the queue's. *)
Local Abbreviation take := firstn (only parsing).

Section more.

Context {T : Type}.
Implicit Types (q : queue T) (xs : list T) (h : history T).

Lemma set_tail_same q : set_tail (tail_ q) q = q.
Proof. by destruct q. Qed.

Lemma set_head_same q : set_head (head_ q) q = q.
Proof. by destruct q. Qed.

Lemma try_emplace_from_refused fuel v t q q' :
  try_emplace_from fuel v t q = Returns false q' → q' = q.
Proof.
  revert t q. induction fuel as [|fuel IH]; intros t q; [done|]. simpl.
  destruct (array_ q !! _) as [s|]; [|done].
  destruct (get_write_turn q t =? turn_ s).
  - unfold compare_exchange. destruct (tail_ q =? t); [done|].
    rewrite set_tail_same. apply IH.
  - destruct (negb (t =? tail_ q)); [apply IH|]. by intros [= <-].
Qed.

Lemma try_pop_from_refused fuel val t q val' q' :
  try_pop_from fuel val t q = Returns (false, val') q' → q' = q ∧ val' = val.
Proof.
  revert t q. induction fuel as [|fuel IH]; intros t q; [done|]. simpl.
  destruct (array_ q !! _) as [s|]; [|done].
  destruct (get_read_turn q t =? turn_ s).
  - unfold compare_exchange. destruct (head_ q =? t).
    + destruct (ArrayBlockingQueue.take _ _ _) as [[x q1]|]; done.
    + rewrite set_head_same. apply IH.
  - destruct (negb (head_ q =? t)); [apply IH|]. by intros [= <- <-].
Qed.

(** A [try_push] that returns false has changed nothing, in whatever
    state the queue is. *)
Theorem try_push_refusal_changes_nothing (fuel : nat) (v : T) q q' :
  try_push fuel v q = Returns false q' → q' = q.
Proof. apply try_emplace_from_refused. Qed.

(** A [try_pop] that returns false has changed neither the queue nor the
    caller's variable, in whatever state the queue is. *)
Theorem try_pop_refusal_changes_nothing (fuel : nat) (val val' : T) q q' :
  try_pop fuel val q = Returns (false, val') q' → q' = q ∧ val' = val.
Proof. apply try_pop_from_refused. Qed.

Lemma emplace_capacity v q q' :
  emplace v q = Returns tt q' → capacity_ q' = capacity_ q.
Proof.
  unfold emplace. destruct (_ !! _); [|done].
  destruct (negb _); [done|]. by intros [= <-].
Qed.

(** In a reachable state [push] and [try_push] go together: either both
    accept, with the same queue afterwards, or [try_push] returns false
    and [push], having taken its ticket, waits for ever. *)
Theorem push_and_try_push_agree (fuel : nat) (v : T) q :
  reachable q →
  (∃ q', try_push (S fuel) v q = Returns true q' ∧ push v q = Returns tt q') ∨
  (try_push (S fuel) v q = Returns false q ∧
   push v q = Spins (set_tail (wrap (tail_ q + 1)) q)).
Proof.
  intros (xs & H & Hq)%reachable_represents.
  destruct (emplace_spec q H xs v fuel Hq) as [(q' & E1 & E2 & _)|[E1 E2]].
  - left. by exists q'.
  - by right.
Qed.

Lemma holds_nonempty q H xs : holds q H xs → head_ q ≠ tail_ q → xs ≠ [].
Proof.
  intros (_ & _ & _ & _ & _ & Hhd & Htl & _) Hne ->.
  simpl in Htl. rewrite Z.add_0_r in Htl. congruence.
Qed.

(** In a reachable state [pop] and [try_pop] go together: when [head_]
    and [tail_] differ both hand out the same value and leave the same
    queue; when they are equal [try_pop] returns false and [pop], having
    taken its ticket, waits for ever. *)
Theorem pop_and_try_pop_agree (fuel : nat) (val : T) q :
  reachable q →
  (head_ q ≠ tail_ q ∧
   ∃ x q', try_pop (S fuel) val q = Returns (true, x) q' ∧
           pop val q = Returns x q') ∨
  (head_ q = tail_ q ∧
   try_pop (S fuel) val q = Returns (false, val) q ∧
   pop val q = Spins (set_head (wrap (head_ q + 1)) q)).
Proof.
  intros (xs & H & Hq)%reachable_represents.
  destruct (decide (head_ q = tail_ q)) as [E|Hne].
  - right. rewrite (holds_drained q H xs Hq E) in Hq.
    destruct (pop_on_empty q H val fuel Hq). done.
  - left. pose proof (holds_nonempty q H xs Hq Hne).
    destruct xs as [|x xs]; [done|].
    destruct (pop_oldest q H x xs val fuel Hq) as (q' & E1 & E2 & _).
    split; [done|]. by exists x, q'.
Qed.


(** One call of the driver, with the ticket of the oldest value held. *)
Lemma step_tickets fuel o val h q H xs r q' :
  holds q H xs →
  step fuel o val h q = Returns r q' →
  ∃ xs' ins outs,
    holds q' (H + Z.of_nat (length outs)) xs' ∧
    pushed r.2 = pushed h ++ ins ∧
    popped r.2 = popped h ++ outs ∧
    xs ++ ins = outs ++ xs'.
Proof.
  intros Hq Hstep. destruct o as [v|v| |]; unfold step in Hstep.
  - destruct (emplace_spec q H xs v 0 Hq) as [(q1 & E & _ & Hq1)|[E _]];
      unfold push in Hstep; rewrite E in Hstep; simplify_eq/=.
    exists (xs ++ [v]), [v], []. by rewrite Z.add_0_r, app_nil_r.
  - destruct fuel as [|n]; [by cbv in Hstep|].
    destruct (emplace_spec q H xs v n Hq) as [(q1 & _ & E & Hq1)|[_ E]];
      unfold try_push in Hstep; rewrite E in Hstep; simplify_eq/=.
    + exists (xs ++ [v]), [v], []. by rewrite Z.add_0_r, app_nil_r.
    + exists xs, [], []. by rewrite Z.add_0_r, !app_nil_r.
  - pose proof (pop_family_spec q H xs val 0 Hq) as Hp.
    destruct xs as [|x xs]; [destruct Hp as [E _]|destruct Hp as (q1 & E & _ & Hq1)];
      rewrite E in Hstep; simplify_eq/=.
    exists xs, [], [x]. by rewrite !app_nil_r.
  - destruct fuel as [|n]; [by cbv in Hstep|].
    pose proof (pop_family_spec q H xs val n Hq) as Hp.
    destruct xs as [|x xs]; [destruct Hp as [_ E]|destruct Hp as (q1 & _ & E & Hq1)];
      rewrite E in Hstep; simplify_eq/=.
    + exists [], [], []. by rewrite Z.add_0_r, !app_nil_r.
    + exists xs, [], [x]. by rewrite !app_nil_r.
Qed.

Lemma run_tickets fuel ops val h q xs r q' :
  holds q (Z.of_nat (length (popped h))) xs →
  pushed h = popped h ++ xs →
  run fuel ops val h q = Returns r q' →
  ∃ xs', holds q' (Z.of_nat (length (popped r.2))) xs' ∧
         pushed r.2 = popped r.2 ++ xs'.
Proof.
  revert val h q xs. induction ops as [|o ops IH]; intros val h q xs Hq Hh Hrun.
  - simplify_eq/=. eauto.
  - simpl in Hrun.
    destruct (step fuel o val h q) as [[val1 h1] q1| | |] eqn:Hstep; try done.
    destruct (step_tickets _ _ _ _ _ _ _ _ _ Hq Hstep)
      as (xs1 & ins & outs & Hq1 & Hin & Hout & Hbal).
    simpl in *. eapply (IH _ _ _ xs1); [| |exact Hrun].
    + rewrite Hout, length_app, Nat2Z.inj_add. exact Hq1.
    + rewrite Hin, Hout, Hh, <- !app_assoc. by f_equal.
Qed.

Lemma run_capacity fuel ops val h q r q' :
  run fuel ops val h q = Returns r q' → capacity_ q' = capacity_ q.
Proof.
  revert val h q. induction ops as [|o ops IH]; intros val h q Hrun.
  - by simplify_eq/=.
  - simpl in Hrun.
    destruct (step fuel o val h q) as [[val1 h1] q1| | |] eqn:Hstep; try done.
    simpl in Hrun. rewrite (IH _ _ _ Hrun). clear Hrun IH.
    destruct o as [v|v| |]; unfold step in Hstep.
    + unfold push, emplace in Hstep. destruct (_ !! _); [|done].
      destruct (negb _); [done|]. by simplify_eq/=.
    + unfold try_push, try_emplace in Hstep.
      destruct (try_emplace_from _ _ _ _) as [b q2| | |] eqn:E; try done.
      simplify_eq/=. clear -E. revert E. generalize (tail_ q) as t.
      revert q. induction fuel as [|n IHn]; intros q t; [done|]. simpl.
      destruct (array_ q !! _) as [s|]; [|done].
      destruct (_ =? turn_ s).
      * unfold compare_exchange. destruct (tail_ q =? t).
        -- by intros [= _ <-].
        -- intros E. by apply IHn in E.
      * destruct (negb _); [apply IHn|]. by intros [= _ <-].
    + unfold pop, ArrayBlockingQueue.take in Hstep. destruct (_ !! _) as [s|]; [|done].
      destruct (negb _); [done|]. destruct (val_ s); [done|]. by simplify_eq/=.
    + unfold try_pop in Hstep.
      destruct (try_pop_from _ _ _ _) as [b q2| | |] eqn:E; try done.
      simplify_eq/=. clear -E. revert E. generalize (head_ q) as t.
      revert q. induction fuel as [|n IHn]; intros q t; [done|]. simpl.
      destruct (array_ q !! _) as [s|]; [|done].
      destruct (_ =? turn_ s).
      * unfold compare_exchange. destruct (head_ q =? t).
        -- unfold ArrayBlockingQueue.take. destruct (val_ s); [done|]. by intros [= _ <-].
        -- intros E. by apply IHn in E.
      * destruct (negb _); [apply IHn|]. by intros [= _ <-].
Qed.

(** On a queue fresh from its constructor, after calls that all returned,
    [head_] and [tail_] are the numbers of values handed out and accepted,
    modulo [2 ^ 64]; what was accepted and not handed out is at most
    [capacity_] values, still to come in that order; and the capacity is
    the one given to the constructor. *)
Theorem counters_count
  (c : Z) (q0 : queue T) (fuel : nat) (ops : list (op T)) (val : T)
  (r : T * history T) q :
  valid_capacity c →
  make true c = Built q0 →
  run fuel ops val (History [] []) q0 = Returns r q →
  head_ q = wrap (Z.of_nat (length (popped r.2))) ∧
  tail_ q = wrap (Z.of_nat (length (pushed r.2))) ∧
  capacity_ q = c ∧
  ∃ xs, pushed r.2 = popped r.2 ++ xs ∧
        Z.of_nat (length xs) ≤ c ∧
        represents q xs.
Proof.
  intros Hc Hmk Hrun. pose proof (fresh_holds c q0 Hc Hmk) as Hq0.
  assert (Hcap : capacity_ q = c).
  { rewrite (run_capacity _ _ _ _ _ _ _ Hrun).
    rewrite (make_valid c Hc) in Hmk. by simplify_eq. }
  destruct (run_tickets fuel ops val (History [] []) q0 [] r q Hq0 eq_refl Hrun)
    as (xs & Hq & Hh).
  pose proof Hq as (_ & _ & _ & Hsz & _ & Hhd & Htl & _).
  split_and!; try done.
  - rewrite Htl, Hh, length_app. f_equal. lia.
  - exists xs. split_and!; [done|by rewrite <- Hcap|by eexists].
Qed.

(** On a queue fresh from its constructor, after calls that all returned,
    a push-family call is accepted as long as fewer than [capacity_]
    values are held and, unless the capacity is 2, fewer than [2 ^ 64]
    values have been accepted so far. *)
Theorem push_accepted_while_room
  (c : Z) (q0 : queue T) (fuel : nat) (ops : list (op T)) (val v : T)
  (r : T * history T) q :
  valid_capacity c →
  make true c = Built q0 →
  run fuel ops val (History [] []) q0 = Returns r q →
  Z.of_nat (length (pushed r.2)) < Z.of_nat (length (popped r.2)) + c →
  c = 2 ∨ Z.of_nat (length (pushed r.2)) < modulus →
  ∃ q', try_push (S fuel) v q = Returns true q' ∧ push v q = Returns tt q'.
Proof.
  intros Hc Hmk Hrun Hroom Hlive.
  assert (Hcap : capacity_ q = c).
  { rewrite (run_capacity _ _ _ _ _ _ _ Hrun).
    rewrite (make_valid c Hc) in Hmk. by simplify_eq. }
  pose proof (fresh_holds c q0 Hc Hmk) as Hq0.
  destruct (run_tickets fuel ops val (History [] []) q0 [] r q Hq0 eq_refl Hrun)
    as (xs & Hq & Hh).
  rewrite Hh, length_app, Nat2Z.inj_add in Hroom, Hlive.
  destruct (push_accepts q _ xs v fuel Hq) as (q' & E1 & E2 & _);
    [lia|rewrite Hcap; lia|].
  by exists q'.
Qed.





End more.

(** *** Destruction *)

Section dtor.

Context {T : Type}.
Implicit Types (q : queue T) (xs : list T) (s : slot_t T) (l : list (slot_t T)).

Lemma slot_dtor_settled s : settled s → slot_dtor s = Some (val_ s, cleared s).
Proof.
  unfold slot_dtor, cleared, destroy.
  intros [(x & Hv & ->)|[Hv ->]]; rewrite !Hv.
  - done.
  - destruct s; simplify_eq/=. done.
Qed.

Lemma destroy_from_settled l pre q :
  array_ q = pre ++ l →
  Forall settled l →
  destroy_from (length l) (length pre) q
  = Some (concat (val_ <$> l),
          Queue (capacity_ q) (pre ++ (cleared <$> l)) (head_ q) (tail_ q)).
Proof.
  revert pre q. induction l as [|s l IH]; intros pre q Harr Hl.
  - simpl. rewrite app_nil_r, <- (app_nil_r pre), <- Harr. by destruct q.
  - apply Forall_cons in Hl as [Hs Hl]. simpl.
    rewrite Harr, list_lookup_middle by done.
    rewrite (slot_dtor_settled s Hs).
    replace (S (length pre)) with (length (pre ++ [cleared s]))
      by (rewrite length_app; simpl; lia).
    rewrite (IH (pre ++ [cleared s])); simpl.
    + rewrite <- app_assoc. done.
    + rewrite Harr. replace (length pre) with (length pre + 0)%nat by lia.
      rewrite insert_app_r. simpl. by rewrite <- app_assoc.
    + done.
Qed.

Lemma holds_settled q H xs : holds q H xs → Forall settled (array_ q).
Proof.
  intros Hq. apply Forall_lookup. intros i s Hs.
  destruct (holds_slot q H xs i s Hq Hs) as [(x & Hv & Ho)|[Hv Ho]].
  - left. exists x. by rewrite has_val_odd.
  - right. by rewrite has_val_odd.
Qed.

Lemma dtor_settled q :
  length (array_ q) = Z.to_nat (capacity_ q) →
  Forall settled (array_ q) →
  dtor q = Some (concat (val_ <$> array_ q),
                 Queue (capacity_ q) [] (head_ q) (tail_ q)).
Proof.
  intros Hlen Hall. unfold dtor, destroy_slots. rewrite <- Hlen.
  pose proof (destroy_from_settled (array_ q) [] q eq_refl Hall) as E.
  simpl in E. by rewrite E.
Qed.

(** The values of slots that hold what a list says, slot by slot. *)
Lemma concat_values l (ys : list T) :
  (∀ (i : nat) s, l !! i = Some s →
     val_ s = match ys !! i with Some y => [y] | None => [] end) →
  concat (val_ <$> l) = take (length l) ys.
Proof.
  revert ys. induction l as [|s l IH]; intros ys Hl; [done|].
  rewrite fmap_cons. cbn [concat length]. rewrite (Hl 0%nat s eq_refl).
  destruct ys as [|y ys]; simpl.
  - etrans; [apply (IH [])|by rewrite take_nil].
    intros i s' Hs'. by rewrite (Hl (S i) s' Hs').
  - f_equal. apply IH. intros i s' Hs'. by rewrite (Hl (S i) s' Hs').
Qed.

Lemma holds_values q H xs (j : nat) s :
  holds q H xs →
  Z.of_nat j < capacity_ q →
  array_ q !! Z.to_nat ((H + Z.of_nat j) mod capacity_ q) = Some s →
  val_ s = match xs !! j with Some y => [y] | None => [] end.
Proof.
  intros (Hc & Hlen & HH & Hsz & Hlim & Hhd & Htl & Hfull & Hfree) Hj Hs.
  destruct (xs !! j) as [y|] eqn:Hy.
  - rewrite (Hfull j y Hy) in Hs. by simplify_eq.
  - apply lookup_ge_None in Hy.
    rewrite Hfree in Hs by lia. by simplify_eq.
Qed.

Lemma holds_in_slot_order q H xs :
  holds q H xs →
  let k := Z.to_nat (capacity_ q - H mod capacity_ q) in
  concat (val_ <$> array_ q) = drop k xs ++ take k xs.
Proof.
  intros Hq k. pose proof Hq as (Hc & Hlen & HH & Hsz & _).
  pose proof (capacity_range _ Hc) as [H2 _].
  set (c := capacity_ q) in *.
  pose proof (Z.mod_pos_bound H c ltac:(lia)) as Hr.
  set (r := Z.to_nat (H mod c)).
  pose proof (Z.div_mod H c ltac:(lia)) as Hdm.
  rewrite <- (take_drop r (array_ q)), fmap_app, concat_app.
  assert (Hk : (k + r)%nat = Z.to_nat c) by (unfold k, r; lia).
  f_equal.
  - rewrite (concat_values _ (drop k xs)).
    + apply take_ge. rewrite length_take, length_drop. lia.
    + intros i s Hs. rewrite lookup_drop.
      assert (Hi : (i < r)%nat).
      { apply lookup_lt_Some in Hs. rewrite length_take in Hs. lia. }
      rewrite lookup_take_lt in Hs by done.
      apply (holds_values q H xs (k + i) s Hq); [fold c; lia|].
      fold c. replace (H + Z.of_nat (k + i)) with (Z.of_nat i + (H / c + 1) * c)
        by (unfold k, r in *; lia).
      rewrite Z.mod_add, Z.mod_small by lia. by rewrite Nat2Z.id.
  - rewrite (concat_values _ xs).
    + f_equal. rewrite length_drop. lia.
    + intros j s Hs. rewrite lookup_drop in Hs.
      assert (Hj : (r + j < Z.to_nat c)%nat).
      { apply lookup_lt_Some in Hs. lia. }
      apply (holds_values q H xs j s Hq); [fold c; lia|].
      fold c. replace (H + Z.of_nat j) with (H mod c + Z.of_nat j + (H / c) * c) by lia.
      rewrite Z.mod_add, Z.mod_small by lia.
      replace (Z.to_nat (H mod c + Z.of_nat j)) with (r + j)%nat by (unfold r; lia).
      done.
Qed.

(** The destructor of a queue in a reachable state runs the destructor of
    each value still held exactly once, in slot order, that is the held
    sequence rotated, and on nothing else; then the array is given back. *)
Theorem dtor_destroys_what_is_held q :
  reachable q →
  ∃ xs (k : nat),
    represents q xs ∧
    dtor q = Some (drop k xs ++ take k xs,
                   Queue (capacity_ q) [] (head_ q) (tail_ q)) ∧
    drop k xs ++ take k xs ≡ₚ xs.
Proof.
  intros (xs & H & Hq)%reachable_represents.
  exists xs, (Z.to_nat (capacity_ q - H mod capacity_ q)).
  split; [by exists H|]. split.
  - rewrite dtor_settled.
    + by rewrite (holds_in_slot_order q H xs Hq).
    + apply Hq.
    + by apply (holds_settled q H xs).
  - rewrite Permutation_app_comm. by rewrite take_drop.
Qed.

End dtor.

Section refinement.

Context {T : Type}.
Implicit Types (q : queue T) (xs : list T) (h : history T).

(** The buffer hands out what it was given, in order. *)
Lemma ring_fifo_balance (c : Z) (ops : list (op T)) (val : T) h xs r xs' :
  pushed h = popped h ++ xs →
  fifo_run c ops val h xs = Some (r, xs') →
  pushed r.2 = popped r.2 ++ xs'.
Proof.
  revert val h xs. induction ops as [|o ops IH]; intros val h xs Hh; simpl.
  { by intros [= <- <-]. }
  destruct o as [v|v| |].
  - destruct (decide _); [|done]. apply IH. simpl. by rewrite Hh, app_assoc.
  - destruct (decide _); [|by apply IH]. apply IH. simpl. by rewrite Hh, app_assoc.
  - destruct xs as [|x xs1]; [done|]. apply IH. simpl.
    by rewrite Hh, <- app_assoc.
  - destruct xs as [|x xs1]; [by apply IH|]. apply IH. simpl.
    by rewrite Hh, <- app_assoc.
Qed.

(** The queue does what the FIFO buffer does, lap after lap, as long as
    the tickets last. *)
Lemma ring_run_refines fuel (ops : list (op T)) (val : T) h xs r xs' q H :
  holds q H xs →
  capacity_ q = 2 ∨ H + Z.of_nat (length xs) + Z.of_nat (length ops) ≤ modulus →
  fifo_run (capacity_ q) ops val h xs = Some (r, xs') →
  ∃ q' H', run (S fuel) ops val h q = Returns r q' ∧ holds q' H' xs'.
Proof.
  revert val h xs q H.
  induction ops as [|o ops IH]; intros val h xs q H Hq Hticket; simpl.
  { intros [= <- <-]. eauto. }
  assert (Hpush : ∀ v,
            Z.of_nat (length xs) < capacity_ q →
            ∃ q1, emplace v q = Returns tt q1 ∧
                  try_emplace (S fuel) v q = Returns true q1 ∧
                  holds q1 H (xs ++ [v]) ∧
                  capacity_ q1 = capacity_ q).
  { intros v Hlt.
    destruct (push_accepts q H xs v fuel Hq Hlt) as (q1 & E1 & E2 & Hq1).
    { destruct Hticket as [?|Ht]; [by left|right].
      rewrite length_cons in Ht. lia. }
    exists q1. split_and!; [done..|]. by eapply emplace_capacity. }
  assert (Hnext : ∀ H1 (xs1 : list T),
            H1 + Z.of_nat (length xs1) ≤ H + Z.of_nat (length xs) + 1 →
            capacity_ q = 2 ∨
            H1 + Z.of_nat (length xs1) + Z.of_nat (length ops) ≤ modulus).
  { intros H1 xs1 Hle. destruct Hticket as [?|Ht]; [by left|right].
    rewrite length_cons in Ht. lia. }
  destruct o as [v|v| |]; unfold step, push, try_push.
  - destruct (decide _) as [Hlt|]; [|done]. intros Hrun.
    destruct (Hpush v Hlt) as (q1 & E & _ & Hq1 & Hcap). rewrite E. simpl.
    rewrite <- Hcap in Hrun. apply (IH _ _ _ q1 H Hq1); [|done].
    rewrite Hcap. apply Hnext. rewrite length_app. simpl. lia.
  - destruct (decide _) as [Hlt|Hfull]; intros Hrun.
    + destruct (Hpush v Hlt) as (q1 & _ & E & Hq1 & Hcap). rewrite E. simpl.
      rewrite <- Hcap in Hrun. apply (IH _ _ _ q1 H Hq1); [|done].
      rewrite Hcap. apply Hnext. rewrite length_app. simpl. lia.
    + assert (Hlen : Z.of_nat (length xs) = capacity_ q).
      { destruct Hq as (_ & _ & _ & Hle & _). lia. }
      destruct (push_full q H xs v fuel Hq Hlen) as [_ E]. rewrite E. simpl.
      apply (IH _ _ _ q H Hq); [|done]. apply Hnext. lia.
  - destruct xs as [|x xs1]; [done|]. intros Hrun.
    destruct (pop_oldest q H x xs1 val fuel Hq) as (q1 & E & _ & Hq1).
    rewrite E. simpl. pose proof (pop_capacity _ _ _ _ E) as Hcap.
    rewrite <- Hcap in Hrun. apply (IH _ _ _ q1 (H + 1) Hq1); [|done].
    rewrite Hcap. apply Hnext. simpl. lia.
  - destruct xs as [|x xs1]; intros Hrun.
    + destruct (pop_on_empty q H val fuel Hq) as [_ E]. rewrite E. simpl.
      apply (IH _ _ _ q H Hq); [|done]. apply Hnext. simpl. lia.
    + destruct (pop_oldest q H x xs1 val fuel Hq) as (q1 & E0 & E & Hq1).
      rewrite E. simpl. pose proof (pop_capacity _ _ _ _ E0) as Hcap.
      rewrite <- Hcap in Hrun. apply (IH _ _ _ q1 (H + 1) Hq1); [|done].
      rewrite Hcap. apply Hnext. simpl. lia.
Qed.

End refinement.

End ArrayBlockingQueueMore.

(** ** More about [linked_blocking_queue<T>] *)

Module LinkedBlockingQueueMore.

Import LinkedBlockingQueue.

Section destruction.

Context {T : Type} `{!Element T}.
Implicit Types (q : queue T) (h : gmap positive (node T)) (xs : list T)
  (cells fs : list (positive * T)) (lost : list positive).












End destruction.

(** *** The calls on reachable queues *)

Section calls.

Context {T : Type} `{!Element T}.
Implicit Types (q : queue T) (xs : list T) (cells fs : list (positive * T))
  (lost : list positive).

(** A push on a reachable queue never blocks.  When the free list is
    empty and [malloc] returns null it goes through the null pointer.
    Otherwise it takes a node, the head of the free list if there is one,
    and either returns, with the value in the node that was at [back_] and
    the new node at [back_]; or, when the constructor of the element
    throws, ends with that exception (or the program, where the
    constructor is [noexcept]), the queue holding what it held and the new
    node lost: zeroed, with no pointer of the queue leading to it. *)
Theorem push_returns_throws_or_meets_null (v : T) q :
  reachable q →
  (free_list_ q = None ∧ blocks_left q = 0%nat ∧
   push v q = Undefined ∧ push_rvalue v q = Undefined) ∨
  ((free_list_ q ≠ None ∨ blocks_left q ≠ 0%nat) ∧
   ∃ cells b fs lost g q',
     shape q cells b fs lost ∧
     g = default (next_block q) (free_list_ q) ∧
     if next_ctor_throws q then
       push v q
       = (if is_nothrow_copy_constructible then Terminates else Throws q') ∧
       push_rvalue v q
       = (if is_nothrow_move_constructible then Terminates else Throws q') ∧
       shape q' cells b (tail fs) (g :: lost)
     else
       push v q = Returns tt q' ∧
       push_rvalue v q = Returns tt q' ∧
       shape q' (cells ++ [(b, v)]) g (tail fs) lost).
Proof.
  intros (cells & b & fs & lost & Hs)%reachable_shape.
  destruct (free_list_ q) as [a|] eqn:Hfl; [|destruct (blocks_left q) as [|k] eqn:Hbl].
  2:{ left. split_and!; [done..| |]; by apply insert_exhausted. }
  all: right; split; [auto|].
  all: destruct (insert_shape q cells b fs lost v Hs) as (g & q' & E & Hs' & _ & _ & Hg);
    [rewrite ?Hfl, ?Hbl; auto|].
  all: exists cells, b, fs, lost, g, q'; split; [done|].
  all: assert (Hfs : free_list_ q = head fs.*1)
    by (destruct Hs as (? & _ & _ & _ & _ & Hr & _); by apply rseg_head in Hr).
  all: rewrite Hfl in Hfs; split;
    [destruct fs as [|c fs']; destruct Hg as (-> & _); simplify_eq/=; done|].
  all: unfold push, push_rvalue; rewrite !E; by destruct (next_ctor_throws q).
Qed.

(** [pop] and [try_pop] on a reachable queue.  When [empty] is true
    [try_pop] returns no value and [pop] waits for ever, both with the lock
    given back and nothing changed.  Otherwise, when the move out of the
    node throws, both end with the exception (or the program, where the
    private [pop] is [noexcept]) and the queue as it was; and when it
    returns, [pop] returns the oldest value, and [try_pop] returns it too
    with the same queue, unless its second move throws: then it ends with
    that exception, the node detached and the value gone. *)
Theorem pop_and_try_pop_side_by_side q :
  reachable q →
  (empty q = Returns true q ∧
   try_pop q = Returns None q ∧
   pop q = Blocks q) ∨
  (empty q = Returns false q ∧
   if next_ctor_throws q then
     pop q = (if pop_noexcept then Terminates else Throws (ctor_done q)) ∧
     try_pop q = (if pop_noexcept then Terminates else Throws (ctor_done q))
   else
     ∃ x xs q',
       holds q (x :: xs) ∧
       holds q' xs ∧
       pop q = Returns x q' ∧
       try_pop q
       = if next_ctor_throws q' then
           if is_nothrow_move_constructible then Terminates
           else Throws (ctor_done q')
         else Returns (Some x) (ctor_done q')).
Proof.
  intros [xs Hq]%reachable_holds.
  pose proof (empty_spec q xs Hq) as He.
  destruct xs as [|x xs].
  - left. destruct (pop_empty q Hq). done.
  - right. split; [done|].
    destruct (next_ctor_throws q) eqn:Hth.
    + by apply (pop_throws q x xs).
    + destruct (pop_takes q x xs Hq Hth) as (q' & ? & ? & E1 & E2 & Hq' & _).
      by exists x, xs, q'.
Qed.

(** On a queue fresh from its constructor, after calls that all returned,
    what was pushed is what was popped followed by what the queue holds,
    in order: nothing is lost, repeated or reordered. *)
Theorem linked_history_balance
  (blocks : nat) (throws : list bool) (q0 : queue T) (ops : list (op T))
  (hi : history T) q :
  make blocks throws = Returns tt q0 →
  run ops (History [] []) q0 = Returns hi q →
  ∃ xs, holds q xs ∧ pushed hi = popped hi ++ xs.
Proof.
  intros Hmk Hrun.
  apply (run_spec ops (History [] []) q0 [] hi q); [|done|done].
  by eapply make_holds.
Qed.

(** The free list is a stack: a node given to [free_node] is the one
    [alloc_from_free_list] hands out next, and the head of the free list
    is then what it was. *)
Theorem free_list_is_a_stack q (a : positive) (n : node T) :
  heap q !! a = Some n →
  bind (free_node (Some a)) (λ _, alloc_from_free_list) q
  = Returns (Some a)
      (Queue (<[a := Node (val_ n) (free_list_ q)]> (heap q))
         (next_block q) (blocks_left q) (ctor_throws q) (free_list_ q)
         (front_ q) (back_ q)).
Proof.
  intros Ha. destruct q as [h nb bl th fl fr bk]. cbn [heap] in Ha.
  repeat (progress (exec; rewrite ?Ha, ?lookup_insert_eq)).
  done.
Qed.

(** After a pop the next push takes the node just popped: it calls no
    [malloc], so it does not meet a null pointer even when no memory is
    left, and the free list is what it was before the pop.  When the
    constructor of the element returns, the node is the zeroed node at
    [back_], the object that was left in it overwritten without its
    destructor; when it throws, the node is lost. *)
Theorem push_after_pop_reuses_the_node (x v : T) q q1 :
  reachable q →
  pop q = Returns x q1 ∨ try_pop q = Returns (Some x) q1 →
  ∃ old q2 cells b fs lost,
    ptr_ (front_ q) = Some old ∧
    heap q1 !! old = Some (Node (Object (moved_from x)) (free_list_ q)) ∧
    shape q1 cells b ((old, moved_from x) :: fs) lost ∧
    (if next_ctor_throws q1 then
       push v q1
       = (if is_nothrow_copy_constructible then Terminates else Throws q2) ∧
       push_rvalue v q1
       = (if is_nothrow_move_constructible then Terminates else Throws q2) ∧
       shape q2 cells b fs (old :: lost)
     else
       push v q1 = Returns tt q2 ∧
       push_rvalue v q1 = Returns tt q2 ∧
       shape q2 (cells ++ [(b, v)]) old fs lost) ∧
    heap q2 !! old = Some (Node Zeroed None) ∧
    free_list_ q2 = free_list_ q ∧
    blocks_left q2 = blocks_left q ∧
    next_block q2 = next_block q.
Proof.
  intros (cells & b & fs & lost & Hs)%reachable_shape Hpop.
  destruct (pop_shape q cells b fs lost x q1 Hs Hpop)
    as (a & cells' & -> & Hs1 & Hbl & Hnb).
  pose proof (shape_holds _ _ _ _ _ Hs) as Hq.
  destruct (pop_returned q _ x q1 Hq Hpop)
    as (xs1 & old & nxt & _ & _ & Hold & _ & _ & Hnode1 & Hfl1 & _).
  assert (old = a) as ->.
  { destruct Hs1 as (? & _ & _ & _ & _ & Hr & _).
    apply rseg_head in Hr. simpl in Hr. congruence. }
  destruct (insert_shape q1 cells' b _ lost v Hs1)
    as (g & q2 & E & Hs2 & _ & Hfl2 & -> & Hbl2 & Hnb2); [left; by rewrite Hfl1|].
  simpl in Hs2, Hfl2.
  exists a, q2, cells', b, fs, lost. split_and!; try done; try congruence.
  - unfold push, push_rvalue. rewrite !E. by destruct (next_ctor_throws q1).
  - destruct (next_ctor_throws q1).
    + destruct Hs2 as (? & _ & _ & _ & _ & _ & _ & _ & Hl & _). apply Hl. left.
    + by destruct Hs2 as (? & _ & _ & _ & Hb2 & _).
  - rewrite Hfl2. destruct Hs as (? & _ & _ & _ & _ & Hr & _).
    by apply rseg_head in Hr.
Qed.


End calls.

End LinkedBlockingQueueMore.

(** ** About [spinlock] *)

Module SpinlockFacts.

Import Spinlock.

Lemma wait_free_held (fuel : nat) : wait_free fuel true = None.
Proof. induction fuel; [done|]. simpl. done. Qed.

Lemma lock_held (fuel : nat) : lock fuel true = None.
Proof. destruct fuel; [done|]. simpl. by rewrite wait_free_held. Qed.

(** [lock] returns only on a lock that was free, and leaves it held; on a
    held lock, the caller's own included, it never returns however long it
    runs.  [try_lock] returns true in exactly the states in which [lock]
    returns, with the same effect, and a held lock stays held when it
    returns false.  [unlock] frees the lock for the next [lock]. *)
Theorem lock_is_not_reentrant (fuel : nat) (s s' : bool) :
  (lock fuel s = Some s' ↔ s = false ∧ s' = true ∧ fuel ≠ 0%nat) ∧
  (try_lock s = (true, s') ↔ lock 1 s = Some s') ∧
  (try_lock s = (false, s') → s = true ∧ s' = true) ∧
  lock (S fuel) (unlock s) = Some true.
Proof.
  split_and!.
  - destruct s.
    + rewrite lock_held. split; [done|]. by intros [? _].
    + destruct fuel; simpl; split; try done.
      * by intros (_ & _ & ?).
      * by intros [= <-].
      * by intros (_ & -> & _).
  - destruct s; simpl; split; intros [= <-]; done.
  - destruct s; simpl; by intros [= <-].
  - done.
Qed.

End SpinlockFacts.

(** ** First in, first out *)

Section fifo.

Context {T : Type} `{!LinkedBlockingQueue.Element T}.

(** C3: each queue, fresh from its constructor, does call by call what a
    FIFO buffer does on the same calls of a single thread, as long as no
    blocking call is made where it would wait for ever, the bounded queue
    has tickets left (any number of calls with capacity 2, [2 ^ 64] with a
    larger one) and the unbounded queue has a node for every value held and
    constructors that do not throw: the calls return, with the same results
    and the same values held, lap after lap of the ring and reusing the
    nodes; so what the pop-family calls hand out is what the push-family
    calls were given, in the same order, and all of it once the queue is
    drained.  And whatever the calls, if they all return and leave the
    queue drained, the values handed out are the values accepted, in the
    same order. *)
Theorem fifo_order
  (c : Z) (q0 : ArrayBlockingQueue.queue T)
  (room : nat) (throws : list bool) (l0 : LinkedBlockingQueue.queue T)
  (fuel : nat) (val : T) :
  ArrayBlockingQueue.valid_capacity c →
  ArrayBlockingQueue.make true c = ArrayBlockingQueue.Built q0 →
  LinkedBlockingQueue.make (S room) throws = LinkedBlockingQueue.Returns tt l0 →
  (∀ ops r xs,
     c = 2 ∨ Z.of_nat (length ops) ≤ modulus →
     ArrayBlockingQueue.fifo_run c ops val (ArrayBlockingQueue.History [] []) []
     = Some (r, xs) →
     ArrayBlockingQueue.pushed r.2 = ArrayBlockingQueue.popped r.2 ++ xs ∧
     ∃ q,
       ArrayBlockingQueue.run (S fuel) ops val (ArrayBlockingQueue.History [] []) q0
       = ArrayBlockingQueue.Returns r q ∧
       ArrayBlockingQueue.represents q xs ∧
       (xs = [] → ArrayBlockingQueue.head_ q = ArrayBlockingQueue.tail_ q)) ∧
  (∀ ops r q,
     ArrayBlockingQueue.run fuel ops val (ArrayBlockingQueue.History [] []) q0
     = ArrayBlockingQueue.Returns r q →
     ArrayBlockingQueue.head_ q = ArrayBlockingQueue.tail_ q →
     ArrayBlockingQueue.popped r.2 = ArrayBlockingQueue.pushed r.2) ∧
  (throws = [] →
   ∀ ops h xs,
     LinkedBlockingQueue.fifo_run room ops (LinkedBlockingQueue.History [] []) []
     = Some (h, xs) →
     LinkedBlockingQueue.pushed h = LinkedBlockingQueue.popped h ++ xs ∧
     ∃ l,
       LinkedBlockingQueue.run ops (LinkedBlockingQueue.History [] []) l0
       = LinkedBlockingQueue.Returns h l ∧
       LinkedBlockingQueue.holds l xs ∧
       (xs = [] → LinkedBlockingQueue.empty l = LinkedBlockingQueue.Returns true l)) ∧
  (∀ ops h l,
     LinkedBlockingQueue.run ops (LinkedBlockingQueue.History [] []) l0
     = LinkedBlockingQueue.Returns h l →
     LinkedBlockingQueue.empty l = LinkedBlockingQueue.Returns true l →
     LinkedBlockingQueue.popped h = LinkedBlockingQueue.pushed h).
Proof.
  intros Hc Hmk Hlmk. pose proof (capacity_range _ Hc) as [H2 HM].
  pose proof (fresh_holds c q0 Hc Hmk) as Hq0.
  pose proof (make_holds _ _ l0 Hlmk) as Hl0.
  assert (Hcap0 : ArrayBlockingQueue.capacity_ q0 = c).
  { rewrite (make_valid c Hc) in Hmk. by simplify_eq. }
  split_and!.
  - intros ops r xs Hticket Hrun. split.
    { by apply (ArrayBlockingQueueMore.ring_fifo_balance c ops val
                  (ArrayBlockingQueue.History [] []) [] r xs). }
    rewrite <- Hcap0 in Hrun.
    destruct (ArrayBlockingQueueMore.ring_run_refines fuel ops val
                (ArrayBlockingQueue.History [] []) [] r xs q0 0 Hq0)
      as (q & H' & E & Hq); [by rewrite Hcap0|done|].
    exists q. split_and!; [done|by exists H'|].
    intros ->. destruct Hq as (_ & _ & _ & _ & _ & -> & -> & _).
    simpl. f_equal. lia.
  - intros ops r q Hrun Hdr.
    destruct (run_fifo fuel ops val (ArrayBlockingQueue.History [] []) q0 0 [] r q Hq0 eq_refl Hrun)
      as (H' & xs & Hq & Hh).
    rewrite (holds_drained q H' xs Hq Hdr), app_nil_r in Hh. done.
  - intros -> ops h xs Hrun. split.
    { by apply (list_fifo_balance room ops (LinkedBlockingQueue.History [] []) h [] xs). }
    pose proof (make_shape _ _ l0 Hlmk) as Hs0.
    rewrite make_succeeds in Hlmk. simplify_eq.
    destruct (list_run_refines room ops (LinkedBlockingQueue.History [] []) h [] xs _
                [] 1%positive [] [] Hs0) as (l & E & Hl & _); [done|done|simpl; lia|done|].
    exists l. split_and!; [done..|].
    intros ->. by rewrite (empty_spec l [] Hl).
  - intros ops h l Hrun Hem.
    destruct (run_spec ops (LinkedBlockingQueue.History [] []) l0 [] h l Hl0 eq_refl Hrun)
      as (xs & Hl & Hh).
    rewrite (empty_spec l xs Hl) in Hem.
    destruct xs; [|by simplify_eq].
    by rewrite app_nil_r in Hh.
Qed.

End fifo.

(** ** Examples for the further properties *)

Module ArrayExamples.

Import ArrayBlockingQueue ArrayBlockingQueueMore.

Lemma try_push_refusal_changes_nothing_witness :
  try_push 1 5%nat four_full = Returns false four_full ∧ four_full = four_full.
Proof.
  split; [reflexivity|].
  exact (try_push_refusal_changes_nothing 1 5%nat four_full four_full eq_refl).
Defined.

Lemma try_pop_refusal_changes_nothing_witness :
  try_pop 1 0%nat four = Returns (false, 0%nat) four ∧ four = four ∧ 0%nat = 0%nat.
Proof.
  split; [reflexivity|].
  exact (try_pop_refusal_changes_nothing 1 0%nat 0%nat four four eq_refl).
Defined.

Lemma push_and_try_push_agree_witness :
  reachable four ∧
  ((∃ q', try_push 1 5%nat four = Returns true q' ∧ push 5%nat four = Returns tt q') ∨
   (try_push 1 5%nat four = Returns false four ∧
    push 5%nat four = Spins (set_tail (wrap (tail_ four + 1)) four))).
Proof.
  split; [exact reachable_four|].
  exact (push_and_try_push_agree 0 5%nat four reachable_four).
Defined.

Lemma pop_and_try_pop_agree_witness :
  reachable four ∧
  ((head_ four ≠ tail_ four ∧
    ∃ x q', try_pop 1 0%nat four = Returns (true, x) q' ∧
            pop 0%nat four = Returns x q') ∨
   (head_ four = tail_ four ∧
    try_pop 1 0%nat four = Returns (false, 0%nat) four ∧
    pop 0%nat four = Spins (set_head (wrap (head_ four + 1)) four))).
Proof.
  split; [exact reachable_four|].
  exact (pop_and_try_pop_agree 0 0%nat four reachable_four).
Defined.

Lemma counters_count_witness :
  ∃ q : queue nat,
    valid_capacity 4 ∧
    make true 4 = Built four ∧
    run 1 [Push 1%nat; TryPush 2%nat; Pop] 0%nat (History [] []) four
    = Returns (1%nat, History [1; 2]%nat [1%nat]) q ∧
    head_ q = wrap 1 ∧ tail_ q = wrap 2 ∧ capacity_ q = 4.
Proof.
  eexists. split; [exact valid_capacity_four|]. split; [reflexivity|].
  split; [reflexivity|].
  destruct (counters_count 4 four 1 [Push 1%nat; TryPush 2%nat; Pop] 0%nat _ _
              valid_capacity_four eq_refl eq_refl) as (Hh & Ht & Hc & _).
  split; [exact Hh|]. split; [exact Ht|exact Hc].
Defined.

Lemma push_accepted_while_room_witness :
  ∃ q : queue nat,
    valid_capacity 4 ∧
    make true 4 = Built four ∧
    run 1 [Push 1%nat; TryPush 2%nat; Pop] 0%nat (History [] []) four
    = Returns (1%nat, History [1; 2]%nat [1%nat]) q ∧
    (2 < 1 + 4) ∧
    (4 = 2 ∨ 2 < modulus) ∧
    ∃ q', try_push 2 3%nat q = Returns true q' ∧ push 3%nat q = Returns tt q'.
Proof.
  eexists. split; [exact valid_capacity_four|]. split; [reflexivity|].
  split; [reflexivity|]. split; [lia|].
  assert (Hl : 4 = 2 ∨ 2 < modulus) by (right; reflexivity).
  split; [exact Hl|].
  exact (push_accepted_while_room 4 four 1 [Push 1%nat; TryPush 2%nat; Pop]
           0%nat 3%nat _ _ valid_capacity_four eq_refl eq_refl
           ltac:(simpl; lia) Hl).
Defined.


Lemma dtor_destroys_what_is_held_witness :
  reachable four ∧
  ∃ xs (k : nat),
    represents four xs ∧
    dtor four = Some (drop k xs ++ firstn k xs,
                      Queue (capacity_ four) [] (head_ four) (tail_ four)) ∧
    drop k xs ++ firstn k xs ≡ₚ xs.
Proof.
  split; [exact reachable_four|].
  exact (dtor_destroys_what_is_held four reachable_four).
Defined.

End ArrayExamples.

Module LinkedMoreExamples.

Import LinkedBlockingQueue LinkedBlockingQueueMore LinkedExamples.


Lemma fifo_order_witness :
  ArrayBlockingQueue.valid_capacity 4 ∧
  ArrayBlockingQueue.make true 4 = ArrayBlockingQueue.Built ArrayBlockingQueue.four ∧
  @make nat 2 [] = Returns tt fresh ∧
  (∃ q,
     ArrayBlockingQueue.run 1
       [ArrayBlockingQueue.Push 1%nat; ArrayBlockingQueue.TryPush 2%nat;
        ArrayBlockingQueue.Push 3%nat; ArrayBlockingQueue.Push 4%nat;
        ArrayBlockingQueue.TryPush 9%nat;
        ArrayBlockingQueue.Pop; ArrayBlockingQueue.TryPop;
        ArrayBlockingQueue.Push 5%nat; ArrayBlockingQueue.TryPush 6%nat;
        ArrayBlockingQueue.Pop; ArrayBlockingQueue.Pop;
        ArrayBlockingQueue.TryPop; ArrayBlockingQueue.Pop;
        ArrayBlockingQueue.TryPop]
       0%nat (ArrayBlockingQueue.History [] []) ArrayBlockingQueue.four
     = ArrayBlockingQueue.Returns
         (6%nat, ArrayBlockingQueue.History [1; 2; 3; 4; 5; 6]%nat [1; 2; 3; 4; 5; 6]%nat)
         q ∧
     ArrayBlockingQueue.head_ q = ArrayBlockingQueue.tail_ q) ∧
  (∃ l,
     @run nat nat_element
       [Push 1%nat; Pop; PushRvalue 2%nat; Empty; TryPop; TryPop; Push 3%nat; Pop]
       (History [] []) fresh
     = Returns (History [1; 2; 3]%nat [1; 2; 3]%nat) l ∧
     @empty nat l = Returns true l).
Proof.
  split; [exact valid_capacity_four|].
  split; [reflexivity|]. split; [reflexivity|].
  destruct (@fifo_order nat nat_element 4 ArrayBlockingQueue.four 1 [] fresh 0 0%nat
              valid_capacity_four eq_refl eq_refl) as (Hb & _ & Hl & _).
  split.
  - destruct (Hb [ArrayBlockingQueue.Push 1%nat; ArrayBlockingQueue.TryPush 2%nat;
                  ArrayBlockingQueue.Push 3%nat; ArrayBlockingQueue.Push 4%nat;
                  ArrayBlockingQueue.TryPush 9%nat;
                  ArrayBlockingQueue.Pop; ArrayBlockingQueue.TryPop;
                  ArrayBlockingQueue.Push 5%nat; ArrayBlockingQueue.TryPush 6%nat;
                  ArrayBlockingQueue.Pop; ArrayBlockingQueue.Pop;
                  ArrayBlockingQueue.TryPop; ArrayBlockingQueue.Pop;
                  ArrayBlockingQueue.TryPop]
                (6%nat, ArrayBlockingQueue.History [1; 2; 3; 4; 5; 6]%nat
                          [1; 2; 3; 4; 5; 6]%nat) [])
      as (_ & q & E & _ & Hd); [right; by vm_compute|reflexivity|].
    exists q. split; [exact E|exact (Hd eq_refl)].
  - destruct (Hl eq_refl
                [Push 1%nat; Pop; PushRvalue 2%nat; Empty; TryPop; TryPop; Push 3%nat; Pop]
                (History [1; 2; 3]%nat [1; 2; 3]%nat) [])
      as (_ & l & E & _ & He); [reflexivity|].
    exists l. split; [exact E|exact (He eq_refl)].
Defined.

Lemma push_returns_throws_or_meets_null_witness :
  @reachable nat nat_element fresh ∧
  @reachable nat nat_element (fresh_with [true]) ∧
  (∃ q', @push nat nat_element 7%nat fresh = Returns tt q') ∧
  (∃ q' cells b fs lost,
     @push nat nat_element 7%nat (fresh_with [true]) = Throws q' ∧
     shape q' cells b fs (2%positive :: lost)).
Proof.
  split; [apply reachable_fresh|]. split; [apply reachable_fresh|]. split.
  - destruct (@push_returns_throws_or_meets_null nat nat_element 7%nat fresh
                (reachable_fresh []))
      as [(_ & Hbl & _)|(_ & cells & b & fs & lost & g & q' & _ & _ & Hpush & _)].
    + discriminate Hbl.
    + exists q'. exact Hpush.
  - destruct (@push_returns_throws_or_meets_null nat nat_element 7%nat (fresh_with [true])
                (reachable_fresh [true]))
      as [(_ & Hbl & _)|(_ & cells & b & fs & lost & g & q' & _ & Hg & Hpush & _ & Hs)].
    + discriminate Hbl.
    + exists q', cells, b, (tail fs), lost. split; [exact Hpush|].
      rewrite Hg in Hs. exact Hs.
Defined.

Lemma pop_and_try_pop_side_by_side_witness :
  @reachable nat nat_element (seven_with [false; true]) ∧
  ∃ x q',
    @pop nat nat_element (seven_with [false; true]) = Returns x q' ∧
    @try_pop nat nat_element (seven_with [false; true]) = Throws (ctor_done q').
Proof.
  split; [apply reachable_seven|].
  destruct (@pop_and_try_pop_side_by_side nat nat_element (seven_with [false; true])
              (reachable_seven _))
    as [(He & _)|(_ & x & xs & q' & _ & _ & Hp & Ht)].
  - discriminate He.
  - exists x, q'. split; [exact Hp|].
    assert (Hth : ctor_throws q' = [true]).
    { injection Hp as _ <-. reflexivity. }
    unfold next_ctor_throws in Ht. rewrite Hth in Ht. exact Ht.
Defined.

Lemma linked_history_balance_witness :
  @make nat 2 [] = Returns tt fresh ∧
  @run nat nat_element [Push 7%nat] (History [] []) fresh
  = Returns (History [7%nat] []) with_seven ∧
  ∃ xs, holds with_seven xs ∧ [7%nat] = [] ++ xs.
Proof.
  split; [reflexivity|]. split; [reflexivity|].
  exact (@linked_history_balance nat nat_element 2 [] fresh
           [Push 7%nat] (History [7%nat] []) with_seven eq_refl eq_refl).
Defined.

Lemma free_list_is_a_stack_witness :
  heap with_seven !! 1%positive = Some (Node (Object 7%nat) (Some 2%positive)) ∧
  bind (free_node (Some 1%positive)) (λ _, alloc_from_free_list) with_seven
  = Returns (Some 1%positive)
      (Queue (<[1%positive := Node (Object 7%nat) None]> (heap with_seven))
         3%positive 0 [] None (End false (Some 1%positive))
         (End false (Some 2%positive))).
Proof.
  split; [reflexivity|].
  exact (free_list_is_a_stack with_seven 1%positive
           (Node (Object 7%nat) (Some 2%positive)) eq_refl).
Defined.

Lemma push_after_pop_reuses_the_node_witness :
  @reachable nat nat_element with_seven ∧
  (@pop nat nat_element with_seven = Returns 7%nat seven_popped ∨
   @try_pop nat nat_element with_seven = Returns (Some 7%nat) seven_popped) ∧
  ∃ old q2, ptr_ (front_ with_seven) = Some old ∧
            @push nat nat_element 8%nat seven_popped = Returns tt q2 ∧
            heap q2 !! old = Some (Node Zeroed None) ∧
            free_list_ q2 = None.
Proof.
  split; [apply reachable_seven|]. split; [left; reflexivity|].
  destruct (@push_after_pop_reuses_the_node nat nat_element
              7%nat 8%nat with_seven seven_popped
              (reachable_seven []) (or_introl eq_refl))
    as (old & q2 & cells & b & fs & lost & Hold & _ & _ & (Hpush & _) & Hz & Hfl & _).
  exists old, q2. split; [exact Hold|]. split; [exact Hpush|].
  split; [exact Hz|exact Hfl].
Defined.


End LinkedMoreExamples.

Module SpinlockExamples.

Import Spinlock SpinlockFacts.

Lemma lock_is_not_reentrant_witness :
  lock 3 true = None ∧ lock 3 false = Some true.
Proof.
  destruct (lock_is_not_reentrant 3 false true) as (Hl & _).
  split; [reflexivity|]. apply Hl. repeat split. discriminate.
Defined.

End SpinlockExamples.
